(** * Comparison helpers and character diff of [src/App.tsx]

    A shallow embedding of the pure string functions of the application:
    [compareAccountNumbers], [calculateLevenshteinDistance], [fuzzyMatch],
    [diffStrings] and the per-field rule inside [handleProcessMultiFile].

    Data model.
    - A JavaScript string is its sequence of UTF-16 code units: [list N].
      [.length] is [length], [s[i]] is the list lookup [s !! i] ([None] is
      [undefined]), [===] on strings is equality of the lists.
    - [Array.from(str)] iterates by code point: a leading surrogate that is
      followed by a trailing surrogate forms one two-unit element.
    - Integer-valued numbers (lengths, table cells) are [nat]; string lengths
      are far below 2^53, so they are exact in a double.
    - The one real floating-point computation, [1 - distance / maxLength]
      compared with the tolerance, is IEEE binary64 ([SpecFloat], precision
      53, [emax] 1024).
    - Arrays are lists; [matrix[r][c] = v] is an in-place list update. *)

From Stdlib Require Import ZArith NArith String Ascii SpecFloat.
From stdpp Require Import base list strings gmap.

Set Default Proof Using "Type".

Local Open Scope nat_scope.

(** ** JavaScript strings *)

Abbreviation code_unit := N (only parsing).
Abbreviation jsstring := (list N) (only parsing).

(** A string literal of the source, as code units (ASCII literals only). *)
Definition str (s : string) : jsstring :=
  map N_of_ascii (list_ascii_of_string s).

Definition in_range (lo hi c : N) : bool := ((lo <=? c) && (c <=? hi))%N.

(** Leading (high) and trailing (low) surrogates. *)
Definition is_high (c : N) : bool := in_range 0xD800 0xDBFF c.
Definition is_low (c : N) : bool := in_range 0xDC00 0xDFFF c.

(** [Array.from(str)]: the string iterator yields one code point at a time,
    a lone surrogate being an element of its own. *)
Fixpoint Array_from (s : jsstring) : list jsstring :=
  match s with
  | [] => []
  | c :: rest =>
      match rest with
      | d :: rest' =>
          if is_high c && is_low d then [c; d] :: Array_from rest'
          else [c] :: Array_from rest
      | [] => [[c]]
      end
  end.

(** ** Two-dimensional tables *)

(** [matrix[r][c]] read as a number. Every read of the source is inside the
    table; outside it the default is 0. *)
Definition mget (m : list (list nat)) (r c : nat) : nat :=
  default 0 (m !! r ≫= (.!! c)).

(** [matrix[r][c] = v]. Every write of the source is inside the table. *)
Definition mset (m : list (list nat)) (r c v : nat) : list (list nat) :=
  alter (<[c := v]>) r m.

(** ** calculateLevenshteinDistance *)

(** [Array(b.length + 1).fill(null).map(() => Array(a.length + 1).fill(null))]:
    a [null] cell is written as 0, its value under the arithmetic of the
    loops; the loops write every cell before they read it. *)
Definition calculateLevenshteinDistance (a b : jsstring) : nat :=
  if length a =? 0 then length b
  else if length b =? 0 then length a
  else
    let matrix := replicate (length b + 1) (replicate (length a + 1) 0) in
    let matrix := foldl (fun m i => mset m 0 i i) matrix (seq 0 (length a + 1)) in
    let matrix := foldl (fun m j => mset m (j + 1) 0 (j + 1)) matrix (seq 0 (length b)) in
    let matrix :=
      foldl (fun m j =>
        foldl (fun m i =>
          let indicator := if bool_decide (a !! (i - 1) = b !! (j - 1)) then 0 else 1 in
          mset m j i
            (Nat.min (Nat.min (mget m j (i - 1) + 1) (mget m (j - 1) i + 1))
                     (mget m (j - 1) (i - 1) + indicator)))
          m (seq 1 (length a)))
        matrix (seq 1 (length b)) in
    mget matrix (length b) (length a).

(** ** fuzzyMatch *)

(** Numbers that are not integers are IEEE binary64 values. *)
Definition prec : Z := 53.
Definition emax : Z := 1024.

(** An integer-valued number as a double. *)
Definition of_nat (n : nat) : spec_float :=
  binary_normalize prec emax (Z.of_nat n) 0 false.

(** [!s] for a string [s]: only the empty string is falsy. *)
Definition falsy (s : jsstring) : bool :=
  match s with [] => true | _ => false end.

(** [similarity >= tolerance] is [SFleb tolerance similarity]; like [>=] it is
    false as soon as one side is NaN. The default [tolerance = 0.8] of the
    source is not modelled: every call site passes the tolerance. *)
Definition fuzzyMatch (str1 str2 : jsstring) (tolerance : spec_float) : bool :=
  if falsy str1 && falsy str2 then true
  else if falsy str1 || falsy str2 then false
  else
    let distance := calculateLevenshteinDistance str1 str2 in
    let maxLength := Nat.max (length str1) (length str2) in
    if maxLength =? 0 then true
    else
      let similarity :=
        SFsub prec emax (of_nat 1)
          (SFdiv prec emax (of_nat distance) (of_nat maxLength)) in
      SFleb tolerance similarity.

(** The literals [0.7] and [0.8]: the doubles nearest to 7/10 and 8/10. *)
Definition tolerance_0_7 : spec_float := S754_finite false 6305039478318694 (-53).
Definition tolerance_0_8 : spec_float := S754_finite false 7205759403792794 (-53).

(** ** diffStrings *)

(** [{ value: string; added?: boolean; removed?: boolean }]: an absent
    optional field is [None]. *)
Record span := Span {
  value : jsstring;
  added : option bool;
  removed : option bool
}.

Global Instance span_eq_dec : EqDecision span.
Proof. solve_decision. Defined.

(** The [while (i > 0 || j > 0)] loop. [result.unshift(x)] puts [x] in front.
    One unit of [fuel] is spent per iteration; an iteration in which none of
    the three branches applies leaves [i], [j] and [result] as they are.
    [None]: the fuel ran out. *)
Fixpoint backtrace (fuel : nat) (oldChars newChars : list jsstring)
    (matrix : list (list nat)) (i j : nat) (result : list span)
    : option (list span) :=
  if (0 <? i) || (0 <? j) then
    match fuel with
    | 0 => None
    | S fuel =>
        if (0 <? i) && (0 <? j)
           && bool_decide (oldChars !! (i - 1) = newChars !! (j - 1)) then
          backtrace fuel oldChars newChars matrix (i - 1) (j - 1)
            (Span (default [] (oldChars !! (i - 1))) None None :: result)
        else if (0 <? j)
                && ((i =? 0) || (mget matrix (i - 1) j <=? mget matrix i (j - 1))) then
          backtrace fuel oldChars newChars matrix i (j - 1)
            (Span (default [] (newChars !! (j - 1))) (Some true) None :: result)
        else if (0 <? i)
                && ((j =? 0) || (mget matrix i (j - 1) <? mget matrix (i - 1) j)) then
          backtrace fuel oldChars newChars matrix (i - 1) j
            (Span (default [] (oldChars !! (i - 1))) None (Some true) :: result)
        else backtrace fuel oldChars newChars matrix i j result
    end
  else Some result.

(** The body of the coalescing loop: [last] is the last element of
    [coalesced]; [last.value += current.value] updates it in place. The array
    [coalesced] starts with one element, so [last] is always there. *)
Definition coalesce_step (coalesced : list span) (current : span) : list span :=
  match last coalesced with
  | Some l =>
      if bool_decide (added l = added current)
         && bool_decide (removed l = removed current)
      then <[length coalesced - 1 :=
               Span (value l ++ value current) (added l) (removed l)]> coalesced
      else coalesced ++ [current]
  | None => coalesced
  end.

Definition diffStrings (oldStr newStr : jsstring) : option (list span) :=
  let oldChars := Array_from oldStr in
  let newChars := Array_from newStr in
  let matrix := replicate (length oldChars + 1) (replicate (length newChars + 1) 0) in
  let matrix :=
    foldl (fun m i =>
      foldl (fun m j =>
        mset m i j
          (if bool_decide (oldChars !! (i - 1) = newChars !! (j - 1))
           then mget m (i - 1) (j - 1) + 1
           else Nat.max (mget m (i - 1) j) (mget m i (j - 1))))
        m (seq 1 (length newChars)))
      matrix (seq 1 (length oldChars)) in
  result ← backtrace (length oldChars + length newChars) oldChars newChars matrix
              (length oldChars) (length newChars) [];
  match result with
  | [] => Some []
  | first :: rest => Some (foldl coalesce_step [first] rest)
  end.

(** ** compareAccountNumbers and the per-field rule *)

(** [/[^A-Z0-9]/gi]: without the [u] flag, case-insensitive matching
    canonicalises a code unit with [toUpperCase] but never maps a code unit
    from 128 on to one below 128, so the class [A-Z0-9] contains exactly the
    ASCII letters and digits. *)
Definition is_alnum (c : N) : bool :=
  in_range 48 57 c || in_range 65 90 c || in_range 97 122 c.

(** Upper-casing of an ASCII code unit. *)
Definition upper_ascii (c : N) : N :=
  if in_range 97 122 c then (c - 32)%N else c.

(** [longer.endsWith(shorter)]: the search string is compared with the code
    units from [length - searchLength] on; a negative start gives [false]. *)
Definition endsWith (s search : jsstring) : bool :=
  if length search <=? length s
  then bool_decide (drop (length s - length search) s = search)
  else false.

(** [\s] of a regular expression: white space and line terminators. *)
Definition is_js_space (c : N) : bool :=
  in_range 9 13 c || (c =? 32)%N || (c =? 0xA0)%N || (c =? 0x1680)%N
  || in_range 0x2000 0x200A c || (c =? 0x2028)%N || (c =? 0x2029)%N
  || (c =? 0x202F)%N || (c =? 0x205F)%N || (c =? 0x3000)%N || (c =? 0xFEFF)%N.

(** The class [[\s.-]]: [\s], the dot (46) and the hyphen (45). *)
Definition is_separator (c : N) : bool :=
  is_js_space c || (c =? 46)%N || (c =? 45)%N.

(** [{ value1, value2, match }] *)
Record ComparisonEntry := Entry {
  value1 : jsstring;
  value2 : jsstring;
  isMatch : bool
}.

Section Casing.
(** [String.prototype.toUpperCase] and [toLowerCase] are functions of the
    JavaScript library, taken as parameters. *)
Variable toUpperCase toLowerCase : jsstring -> jsstring.

Definition compareAccountNumbers (acc1 acc2 : jsstring) : bool :=
  if falsy acc1 || falsy acc2 then false
  else
    let norm1 := toUpperCase (List.filter is_alnum acc1) in
    let norm2 := toUpperCase (List.filter is_alnum acc2) in
    if (length norm1 =? 0) || (length norm2 =? 0) then false
    else if bool_decide (norm1 = norm2) then true
    else
      let '(shorter, longer) :=
        if length norm1 <? length norm2 then (norm1, norm2) else (norm2, norm1) in
      endsWith longer shorter.

(** The body of [allKeys.forEach(key => ...)] in [handleProcessMultiFile]:
    [data[key] || ''] is the value of the field, or the empty string when
    the field is absent. *)
Definition compareField (data1 data2 : gmap string (list N)) (key : string)
    : ComparisonEntry :=
  let val1 := default [] (data1 !! key) in
  let val2 := default [] (data2 !! key) in
  let isMatch :=
    if bool_decide (key = "beneficiaryName"%string)
       || bool_decide (key = "bankName"%string)
    then fuzzyMatch val1 val2 tolerance_0_7
    else if bool_decide (key = "goodsDescription"%string)
    then fuzzyMatch val1 val2 tolerance_0_8
    else if bool_decide (key = "accountNumber"%string)
    then compareAccountNumbers val1 val2
    else bool_decide
           (List.filter (fun c => negb (is_separator c)) (toLowerCase val1)
            = List.filter (fun c => negb (is_separator c)) (toLowerCase val2)) in
  Entry val1 val2 isMatch.

(** [allKeys] is the set of the keys of both records; each key is assigned
    once, so the order of the iteration does not show in [comparison]. *)
Definition buildComparison (data1 data2 : gmap string (list N))
    : gmap string ComparisonEntry :=
  foldl (fun comparison key => <[key := compareField data1 data2 key]> comparison)
    ∅ (elements (dom data1 ∪ dom data2)).
End Casing.

(** * Reference definitions

    The notions the specification speaks of, written independently of the
    tables of the code. *)

Section Reference.
Context {A : Type} `{EqDecision A}.

(** Edit scripts between two sequences: [edits a b n] is a way to turn [a]
    into [b] with deletions, insertions and substitutions of total cost [n]
    (unit cost each; keeping an equal element is free). *)
Inductive edits : list A → list A → nat → Prop :=
  | edits_nil : edits [] [] 0
  | edits_delete x a b n : edits a b n → edits (x :: a) b (S n)
  | edits_insert y a b n : edits a b n → edits a (y :: b) (S n)
  | edits_keep x a b n : edits a b n → edits (x :: a) (x :: b) n
  | edits_substitute x y a b n : edits a b n → edits (x :: a) (y :: b) (S n).

(** [d] is the Levenshtein distance of [a] and [b]: the least cost of an
    edit script. *)
Definition is_edit_distance (a b : list A) (d : nat) : Prop :=
  edits a b d ∧ ∀ n, edits a b n → d ≤ n.

(** The recurrence of the distance, on the first elements. *)
Fixpoint lev (a b : list A) : nat :=
  match a with
  | [] => length b
  | x :: a' =>
      (fix lev_row (b : list A) : nat :=
         match b with
         | [] => length a
         | y :: b' =>
             Nat.min (Nat.min (lev a' b + 1) (lev_row b' + 1))
                     (lev a' b' + (if decide (x = y) then 0 else 1))
         end) b
  end.

(** [k] is the length of a longest common subsequence of [a] and [b]. *)
Definition is_lcs_length (a b : list A) (k : nat) : Prop :=
  (∃ c, c `sublist_of` a ∧ c `sublist_of` b ∧ length c = k) ∧
  ∀ c, c `sublist_of` a → c `sublist_of` b → length c ≤ k.

(** The recurrence of the length of a longest common subsequence. *)
Fixpoint lcs_len (a b : list A) : nat :=
  match a with
  | [] => 0
  | x :: a' =>
      (fix lcs_row (b : list A) : nat :=
         match b with
         | [] => 0
         | y :: b' =>
             if decide (x = y) then lcs_len a' b' + 1
             else Nat.max (lcs_len a' b) (lcs_row b')
         end) b
  end.
End Reference.

(** ** Vocabulary of the statements *)

(** The classification of a span: [part.added] and [part.removed] are truthy
    only when they are [true]. *)
Definition is_added (s : span) : bool := bool_decide (added s = Some true).
Definition is_removed (s : span) : bool := bool_decide (removed s = Some true).
Definition is_unchanged (s : span) : bool := negb (is_added s) && negb (is_removed s).

(** The three shapes a span can have: [{value}], [{value, added: true}] and
    [{value, removed: true}]. *)
Definition well_tagged (s : span) : Prop :=
  (added s = None ∧ removed s = None)
  ∨ (added s = Some true ∧ removed s = None)
  ∨ (added s = None ∧ removed s = Some true).

(** The number of code points of the value of a span. *)
Definition units_of (s : span) : nat := length (Array_from (value s)).

(** The number of code points in the spans selected by [p]. *)
Definition units_tagged (p : span → bool) (spans : list span) : nat :=
  sum_list (map units_of (List.filter p spans)).

(** [last.added === current.added && last.removed === current.removed] *)
Definition same_class (l c : span) : bool :=
  bool_decide (added l = added c) && bool_decide (removed l = removed c).

(** No two consecutive spans have the same tags. *)
Definition distinct_neighbours (spans : list span) : Prop :=
  ∀ k s1 s2, spans !! k = Some s1 → spans !! S k = Some s2 → same_class s1 s2 = false.

(** The normalisation in the words of the specification: drop what is not
    an ASCII letter or digit, upper-case the rest. *)
Definition normalized (acc : list N) : list N :=
  map upper_ascii (List.filter is_alnum acc).

(** In a span list, removals come before additions wherever the two meet:
    no added span is directly followed by a removed span. *)
Definition removed_before_added (spans : list span) : Prop :=
  ∀ k s1 s2, spans !! k = Some s1 → spans !! S k = Some s2 →
    ¬ (is_added s1 = true ∧ is_removed s2 = true).

(** * The views and the file helpers *)

(** ** DiffText *)

(** The [type] prop: ['added'] or ['removed']. *)
Inductive diffType := TypeAdded | TypeRemoved.

(** What [DiffText] renders for one part: a highlighted [<span>] (green for
    an added part, red and struck through for a removed one) or a plain
    [<span>]; [null] is [None]. *)
Inductive piece :=
  | Highlight (type : diffType) (text : list N)
  | PlainText (text : list N).

Definition DiffText (diffResult : list span) (type : diffType)
    : list (option piece) :=
  map (fun part =>
    match type with
    | TypeAdded =>
        if is_added part then Some (Highlight TypeAdded (value part))
        else if negb (is_removed part) then Some (PlainText (value part))
        else None
    | TypeRemoved =>
        if is_removed part then Some (Highlight TypeRemoved (value part))
        else if negb (is_added part) then Some (PlainText (value part))
        else None
    end) diffResult.

(** The text a rendered list shows, and its highlighted parts. *)
Definition piece_text (p : option piece) : list N :=
  match p with
  | Some (Highlight _ text) | Some (PlainText text) => text
  | None => []
  end.

Definition textContent (pieces : list (option piece)) : list N :=
  concat (map piece_text pieces).

Definition highlighted (pieces : list (option piece)) : list (list N) :=
  omap (fun p => match p with Some (Highlight _ text) => Some text | _ => None end)
    pieces.

(** ** ComparisonView *)

(** [dataFields] of [ComparisonView]: the keys with their labels. *)
Definition comparisonFields : list (string * list N) :=
  [ ("beneficiaryName"%string,
      [1575; 1587; 1605; 32; 1575; 1604; 1605; 1587; 1578; 1601; 1610; 1583]%N);
    ("accountNumber"%string,
      [1585; 1602; 1605; 32; 1575; 1604; 1581; 1587; 1575; 1576]%N);
    ("swiftCode"%string,
      [1587; 1608; 1610; 1601; 1578; 32; 1575; 1604; 1576; 1606; 1603]%N);
    ("bankName"%string, [1575; 1604; 1576; 1606; 1603]%N) ].

(** [dataFields.reduce((acc, field) => { acc[field.key] = field.label; ... }, {})];
    only own properties of the object are modelled. *)
Definition fieldMap : gmap string (list N) :=
  foldl (fun acc field => <[field.1 := field.2]> acc) ∅ comparisonFields.

(** One of the two value boxes of a card: the diff or the bare value. *)
Inductive display :=
  | ShowDiff (pieces : list (option piece))
  | ShowValue (text : list N).

Definition display_text (d : display) : list N :=
  match d with
  | ShowDiff pieces => textContent pieces
  | ShowValue text => text
  end.

Record card := Card {
  card_label : list N;
  card_match : bool;
  card_file1 : display;
  card_file2 : display
}.

(** The callback of [Object.entries(result).map(([key, res]) => ...)]. The
    outer [option] is that of [diffStrings] ([None]: no value returned), the
    inner one is the element rendered, [None] for [null]. *)
Definition comparisonCard (showDiff : bool) (key : string) (res : ComparisonEntry)
    : option (option card) :=
  if falsy (default [] (fieldMap !! key))
     || (falsy (value1 res) && falsy (value2 res))
  then Some None
  else
    diffResult ←
      (if showDiff && negb (isMatch res)
       then Some <$> diffStrings (value1 res) (value2 res)
       else Some None);
    Some (Some (Card (default [] (fieldMap !! key)) (isMatch res)
      (match diffResult with
       | Some d => ShowDiff (DiffText d TypeRemoved)
       | None => ShowValue (value1 res)
       end)
      (match diffResult with
       | Some d => ShowDiff (DiffText d TypeAdded)
       | None => ShowValue (value2 res)
       end))).

(** ** ResultCard: handleCopy *)

(** [dataFields] of [ResultCard]. *)
Definition resultFields : list (string * list N) :=
  [ ("beneficiaryName"%string,
      [1575; 1587; 1605; 32; 1575; 1604; 1605; 1587; 1578; 1601; 1610; 1583]%N);
    ("accountNumber"%string,
      [1585; 1602; 1605; 32; 1575; 1604; 1581; 1587; 1575; 1576]%N);
    ("swiftCode"%string,
      [1587; 1608; 1610; 1601; 1578; 32; 1575; 1604; 1576; 1606; 1603]%N);
    ("bankName"%string, [1575; 1604; 1576; 1606; 1603]%N);
    ("city"%string, [1575; 1604; 1605; 1583; 1610; 1606; 1577]%N);
    ("address"%string, [1575; 1604; 1593; 1606; 1608; 1575; 1606]%N) ].

(** [Array.prototype.join] *)
Fixpoint join (sep : list N) (l : list (list N)) : list N :=
  match l with
  | [] => []
  | [x] => x
  | x :: rest => x ++ sep ++ join sep rest
  end.

(** The section to copy: ['data'] or ['info']. *)
Inductive copySection := SectionData | SectionInfo.

(** [handleCopy]: the text handed to [navigator.clipboard.writeText], [None]
    when nothing is written (and [copiedSection] is left alone). [data] is
    the record of the card, which is not rendered without one. The
    two-second timer that resets [copiedSection] is not modelled.
    [.filter(Boolean)] drops the [null] of an empty field; a line is never
    empty. *)
Definition handleCopy (section : copySection) (data : gmap string (list N))
    (companyInfo : option (list N)) : option (list N) :=
  let textToCopy :=
    match section with
    | SectionData =>
        join (str (String "010"%char EmptyString))
          (omap (fun field =>
                   if falsy (default [] (data !! field.1)) then None
                   else Some (field.2 ++ str ": " ++ default [] (data !! field.1)))
             resultFields)
    | SectionInfo => default [] companyInfo
    end in
  if falsy textToCopy then None else Some textToCopy.

(** ** prepareContentPart and getFileIcon *)

(** [s.startsWith(search)] and [s.includes(search)]. *)
Definition startsWith (s search : list N) : bool :=
  bool_decide (take (length search) s = search).

Fixpoint includes (s search : list N) : bool :=
  startsWith s search
  || match s with
     | [] => false
     | _ :: s' => includes s' search
     end.

(** What the code looks at in a [File]. *)
Record File := { name : list N; type : list N }.

Inductive Part :=
  | InlineData (mimeType data : list N)
  | TextPart (text : list N).

Inductive icon := ImageIcon | PdfIcon | WordIcon | ExcelIcon | TextIcon | FileIcon.

Definition docx_type : list N :=
  str "application/vnd.openxmlformats-officedocument.wordprocessingml.document".
Definition xlsx_type : list N :=
  str "application/vnd.openxmlformats-officedocument.spreadsheetml.sheet".

(** The text of the error before [type || name]. *)
Definition unsupported_prefix : list N :=
  [1606; 1608; 1593; 32; 1575; 1604; 1605; 1604; 1601; 32; 1594; 1610; 1585;
   32; 1605; 1583; 1593; 1608; 1605; 58; 32]%N.

(** Why the promise of [prepareContentPart] is rejected: its own error, or
    the error of a reader. *)
Inductive rejection (E : Type) :=
  | Unsupported (message : list N)
  | ReaderFailed (e : E).
Arguments Unsupported {E} message.
Arguments ReaderFailed {E} e.

Section Readers.
(** The four readers go through [FileReader], [mammoth] and [XLSX]; they are
    parameters: what they resolve to, or the error they reject with. *)
Context {E : Type}.
Variables toBase64 toText wordToText excelToText : File → list N + E.

Definition prepareContentPart (file : File) : Part + rejection E :=
  if startsWith (type file) (str "image/")
     || bool_decide (type file = str "application/pdf")
  then
    match toBase64 file with
    | inl base64 => inl (InlineData (type file) base64)
    | inr e => inr (ReaderFailed e)
    end
  else if bool_decide (type file = docx_type) || endsWith (name file) (str ".docx")
  then
    match wordToText file with
    | inl text => inl (TextPart text)
    | inr e => inr (ReaderFailed e)
    end
  else if bool_decide (type file = xlsx_type)
          || endsWith (name file) (str ".xlsx") || endsWith (name file) (str ".xls")
  then
    match excelToText file with
    | inl text => inl (TextPart text)
    | inr e => inr (ReaderFailed e)
    end
  else if startsWith (type file) (str "text/") || endsWith (name file) (str ".txt")
  then
    match toText file with
    | inl text => inl (TextPart text)
    | inr e => inr (ReaderFailed e)
    end
  else
    inr (Unsupported
           (unsupported_prefix ++ (if falsy (type file) then name file else type file))).
End Readers.

Definition getFileIcon (file : File) : icon :=
  if startsWith (type file) (str "image/") then ImageIcon
  else if bool_decide (type file = str "application/pdf") then PdfIcon
  else if includes (type file) (str "word") || endsWith (name file) (str ".docx")
  then WordIcon
  else if includes (type file) (str "excel") || includes (type file) (str "spreadsheet")
          || endsWith (name file) (str ".xlsx") || endsWith (name file) (str ".xls")
  then ExcelIcon
  else if startsWith (type file) (str "text/") || endsWith (name file) (str ".txt")
  then TextIcon
  else FileIcon.

(** ** Auxiliary definitions of the proofs *)

(** A table of [R] rows of [C] cells each. *)
Definition table_dims (R C : nat) (m : list (list nat)) : Prop :=
  length m = R ∧ Forall (λ row, length row = C) m.

(** The state of a table that is being filled row by row, when the loops
    are about to write cell [r0][c0]: the border (row 0 and column 0), the
    rows before [r0] and the cells of row [r0] before [c0] hold [spec]. *)
Definition known (R C : nat) (spec : nat → nat → nat) (r0 c0 : nat)
    (m : list (list nat)) : Prop :=
  table_dims (S R) (S C) m ∧
  ∀ r c, r ≤ R → c ≤ C →
    r = 0 ∨ c = 0 ∨ r < r0 ∨ (r = r0 ∧ c < c0) → mget m r c = spec r c.

(** A double that is greater than zero (a NaN is not). *)
Definition is_positive_double (x : spec_float) : Prop :=
  match x with
  | S754_finite false _ _ | S754_infinity false => True
  | _ => False
  end.

(** An element of [Array.from(s)] is one code point: not empty, and
    [Array.from] leaves it in one piece. *)
Definition atomic (u : list N) : Prop := u ≠ [] ∧ Array_from u = [u].

(** [splits_pair v1 v2]: [v1] ends with a leading surrogate and [v2] starts
    with a trailing one, so joining them makes a new code point. *)
Definition splits_pair (v1 v2 : list N) : bool :=
  match last v1, head v2 with
  | Some h, Some l => is_high h && is_low l
  | _, _ => false
  end.

(** Neighbouring elements never split a surrogate pair. *)
Fixpoint units_ok (us : list (list N)) : Prop :=
  match us with
  | u :: (v :: _) as tl => splits_pair u v = false ∧ units_ok tl
  | _ => True
  end.

(** One step of the trace: an element kept, added or removed. *)
Inductive edit :=
  | Keep (u : list N)
  | Add (u : list N)
  | Del (u : list N).

Definition to_span (e : edit) : span :=
  match e with
  | Keep u => Span u None None
  | Add u => Span u (Some true) None
  | Del u => Span u None (Some true)
  end.

(** The elements of the old sequence, of the new sequence, and the kept
    elements of a trace. *)
Fixpoint olds (es : list edit) : list (list N) :=
  match es with
  | [] => []
  | Keep u :: es | Del u :: es => u :: olds es
  | Add _ :: es => olds es
  end.

Fixpoint news (es : list edit) : list (list N) :=
  match es with
  | [] => []
  | Keep u :: es | Add u :: es => u :: news es
  | Del _ :: es => news es
  end.

Fixpoint keeps (es : list edit) : list (list N) :=
  match es with
  | [] => []
  | Keep u :: es => u :: keeps es
  | _ :: es => keeps es
  end.

(** The table of [diffStrings] after its two nested loops. *)
Definition diff_table (oldChars newChars : list (list N)) : list (list nat) :=
  foldl (fun m i =>
    foldl (fun m j =>
      mset m i j
        (if bool_decide (oldChars !! (i - 1) = newChars !! (j - 1))
         then mget m (i - 1) (j - 1) + 1
         else Nat.max (mget m (i - 1) j) (mget m i (j - 1))))
      m (seq 1 (length newChars)))
    (replicate (length oldChars + 1) (replicate (length newChars + 1) 0))
    (seq 1 (length oldChars)).

(** [last] after [last.value += current.value]. *)
Definition merge (l c : span) : span :=
  Span (value l ++ value c) (added l) (removed l).

(** The coalescing loop as a recursion over the spans that are left, [l]
    being the last span of [coalesced]. *)
Fixpoint group (l : span) (rest : list span) : list span :=
  match rest with
  | [] => [l]
  | c :: rest => if same_class l c then group (merge l c) rest else l :: group c rest
  end.

(** The last part of [diffStrings], from [result] to the returned list. *)
Definition coalesce (result : list span) : list span :=
  match result with
  | [] => []
  | first :: rest => group first rest
  end.

(** A predicate that looks at the tags of a span only. *)
Definition class_only (p : span → bool) : Prop :=
  ∀ s s', added s = added s' → removed s = removed s' → p s = p s'.

(** Joining neighbouring spans of one class makes no new code point. *)
Fixpoint chain_ok (spans : list span) : Prop :=
  match spans with
  | s1 :: (s2 :: _) as tl =>
      (same_class s1 s2 = true → splits_pair (value s1) (value s2) = false)
      ∧ chain_ok tl
  | _ => True
  end.

(** No span is directly followed by a span that [R] relates it to. *)
Fixpoint neighbours_free (R : span → span → bool) (l : list span) : Prop :=
  match l with
  | s1 :: (s2 :: _) as tl => R s1 s2 = false ∧ neighbours_free R tl
  | _ => True
  end.

(** An added span directly followed by a removed one. *)
Definition added_then_removed (s1 s2 : span) : bool := is_added s1 && is_removed s2.

(** * Verification *)

(** ** Loops and tables *)

(** Invariant rule for [for (let k = a; k < a + n; k++) s = f(s, k)]. *)
Lemma for_loop_ind {St : Type} (P : nat → St → Prop) (f : St → nat → St) n :
  ∀ a s,
    P a s →
    (∀ k s', a ≤ k < a + n → P k s' → P (S k) (f s' k)) →
    P (a + n) (foldl f s (seq a n)).
Proof.
  induction n as [|n IH]; intros a s Ha Hstep; simpl.
  - by rewrite Nat.add_0_r.
  - replace (a + S n) with (S a + n) by lia.
    apply IH.
    + apply Hstep; [lia | done].
    + intros k s' Hk. apply Hstep. lia.
Qed.

Lemma replicate_dims R C x : table_dims R C (replicate R (replicate C x)).
Proof.
  split; [by rewrite length_replicate |].
  apply Forall_replicate. by rewrite length_replicate.
Qed.

Lemma mget_replicate R C r c : mget (replicate R (replicate C 0)) r c = 0.
Proof.
  unfold mget.
  destruct (replicate R (replicate C 0) !! r) as [row|] eqn:Hr; [|done].
  apply lookup_replicate in Hr as [-> _]. simpl.
  destruct (replicate C 0 !! c) as [x|] eqn:Hc; [|done].
  by apply lookup_replicate in Hc as [-> _].
Qed.

Lemma mset_dims R C m r c v : table_dims R C m → table_dims R C (mset m r c v).
Proof.
  intros [Hlen Hrows]. split.
  - unfold mset. by rewrite length_alter.
  - unfold mset. apply Forall_alter; [done|].
    intros row Hrow Hl. by rewrite length_insert.
Qed.

Lemma mget_mset R C m r c v r' c' :
  table_dims R C m → r < R → c < C →
  mget (mset m r c v) r' c' = if decide (r' = r ∧ c' = c) then v else mget m r' c'.
Proof.
  intros [Hlen Hrows] Hr Hc. unfold mget, mset.
  destruct (decide (r' = r)) as [->|Hne].
  - rewrite list_lookup_alter_eq.
    destruct (lookup_lt_is_Some_2 m r) as [row Hrow]; [lia|].
    rewrite Hrow. simpl.
    assert (length row = C) as Hrl.
    { eapply Forall_lookup_1 in Hrows; [|exact Hrow]. done. }
    destruct (decide (c' = c)) as [->|Hc'].
    + rewrite list_lookup_insert_eq by lia. by rewrite decide_True.
    + rewrite list_lookup_insert_ne by done. rewrite decide_False by tauto. done.
  - rewrite list_lookup_alter_ne by done. rewrite decide_False by tauto. done.
Qed.

(** Filling a table row by row, left to right: when every cell is computed
    from cells that are already known to hold [spec], the whole table holds
    [spec]. Row 0 and column 0 are the border, given beforehand. *)
Section Fill.
Variables (R C : nat) (spec : nat → nat → nat).
Variable cell : list (list nat) → nat → nat → nat.

Hypothesis cell_spec : ∀ m r c,
  1 ≤ r ≤ R → 1 ≤ c ≤ C → known R C spec r c m → cell m r c = spec r c.

Lemma fill_row m r :
  1 ≤ r ≤ R → known R C spec r 1 m →
  known R C spec (S r) 1 (foldl (λ m c, mset m r c (cell m r c)) m (seq 1 C)).
Proof using cell_spec.
  intros Hr Hm.
  assert (known R C spec r (1 + C)
            (foldl (λ m c, mset m r c (cell m r c)) m (seq 1 C))) as [Hd Hk].
  { apply (for_loop_ind (λ c m, known R C spec r c m)); [done|].
    intros c m' Hc [Hd Hk]. split; [by apply mset_dims|].
    intros r' c' Hr' Hc' Hcase.
    rewrite (mget_mset (S R) (S C)) by (done || lia).
    case_decide as Heq.
    - destruct Heq as [-> ->]. apply cell_spec; [lia..|]. by split.
    - apply Hk; [done..|]. lia. }
  split; [done|]. intros r' c' Hr' Hc' Hcase. apply Hk; [done..|]. lia.
Qed.

Lemma fill_table m :
  known R C spec 1 1 m →
  known R C spec (S R) 1
    (foldl (λ m r, foldl (λ m c, mset m r c (cell m r c)) m (seq 1 C)) m (seq 1 R)).
Proof using cell_spec.
  intros Hm.
  apply (for_loop_ind (λ r m, known R C spec r 1 m)); [done|].
  intros r m' Hr Hk. apply fill_row; [lia | done].
Qed.

Lemma known_all m r c : known R C spec (S R) 1 m → r ≤ R → c ≤ C → mget m r c = spec r c.
Proof. intros [_ Hk] Hr Hc. apply Hk; [done..|]. lia. Qed.
End Fill.

(** ** The Levenshtein table *)

Section Lev.
Context {A : Type} `{EqDecision A}.
Implicit Types a b : list A.

Lemma lev_nil_r a : lev a [] = length a.
Proof. by destruct a. Qed.

Lemma lev_cons_cons x y a b :
  lev (x :: a) (y :: b)
  = Nat.min (Nat.min (lev a (y :: b) + 1) (lev (x :: a) b + 1))
            (lev a b + (if decide (x = y) then 0 else 1)).
Proof. reflexivity. Qed.

Lemma lev_sym a : ∀ b, lev a b = lev b a.
Proof.
  induction a as [|x a IHa]; intros b.
  - by rewrite lev_nil_r.
  - induction b as [|y b IHb]; [done|].
    rewrite !lev_cons_cons, IHb, (IHa (y :: b)), (IHa b).
    replace (if decide (y = x) then 0 else 1)
      with (if decide (x = y) then 0 else 1) by (repeat case_decide; congruence).
    lia.
Qed.

Lemma lev_refl a : lev a a = 0.
Proof.
  induction a as [|x a IH]; [done|].
  rewrite lev_cons_cons, IH, decide_True by done. lia.
Qed.

Lemma reverse_take_S (l : list A) i x :
  l !! i = Some x → reverse (take (S i) l) = x :: reverse (take i l).
Proof. intros Hx. by rewrite (take_S_r _ _ _ Hx), reverse_snoc. Qed.
End Lev.

Section LevTable.
Variables a b : list N.

(** What cell [j][i] of the table holds: the distance between the first
    [i] code units of [a] and the first [j] code units of [b]. *)
Let lev_spec (j i : nat) : nat :=
  lev (reverse (take i a)) (reverse (take j b)).

Lemma lev_spec_row0 i : i ≤ length a → lev_spec 0 i = i.
Proof.
  intros Hi. unfold lev_spec. rewrite take_0, reverse_nil, lev_nil_r.
  by rewrite length_reverse, length_take_le.
Qed.

Lemma lev_spec_col0 j : j ≤ length b → lev_spec j 0 = j.
Proof.
  intros Hj. unfold lev_spec. rewrite take_0, reverse_nil. simpl.
  by rewrite length_reverse, length_take_le.
Qed.

Lemma lev_border :
  known (length b) (length a) lev_spec 1 1
    (foldl (fun m j => mset m (j + 1) 0 (j + 1))
       (foldl (fun m i => mset m 0 i i)
          (replicate (length b + 1) (replicate (length a + 1) 0))
          (seq 0 (length a + 1)))
       (seq 0 (length b))).
Proof.
  replace (length b + 1) with (S (length b)) by lia.
  replace (length a + 1) with (S (length a)) by lia.
  set (R := length b). set (C := length a).
  set (m1 := foldl _ _ (seq 0 (S C))).
  assert (table_dims (S R) (S C) m1 ∧ ∀ c, c ≤ C → mget m1 0 c = c)
    as [Hd1 Hk1].
  { pose proof (for_loop_ind
      (λ k m, table_dims (S R) (S C) m ∧ ∀ c, c < k → mget m 0 c = c)
      (fun m i => mset m 0 i i) (S C) 0
      (replicate (S R) (replicate (S C) 0))) as Hl.
    destruct Hl as [Hd Hk].
    - split; [apply replicate_dims|]. intros; lia.
    - intros k m Hk [Hd' Hk']. split; [by apply mset_dims|].
      intros c Hc. rewrite (mget_mset (S R) (S C)) by (done || lia).
      case_decide as Heq; [lia|]. apply Hk'. lia.
    - split; [done|]. intros c Hc. apply Hk. lia. }
  pose proof (for_loop_ind
    (λ k m, table_dims (S R) (S C) m ∧ (∀ c, c ≤ C → mget m 0 c = c)
            ∧ ∀ r, r ≤ k → r ≤ R → mget m r 0 = r)
    (fun m j => mset m (j + 1) 0 (j + 1)) R 0 m1) as Hl.
  destruct Hl as (Hd2 & Hr2 & Hc2).
  - split; [done|]. split; [done|]. intros r Hr _.
    replace r with 0 by lia. apply Hk1. lia.
  - intros k m Hk (Hd & Hr & Hc). split; [by apply mset_dims|].
    split.
    + intros c Hc'. rewrite (mget_mset (S R) (S C)) by (done || lia).
      case_decide as Heq; [lia|]. by apply Hr.
    + intros r Hr1 Hr2. rewrite (mget_mset (S R) (S C)) by (done || lia).
      case_decide as Heq; [lia|]. apply Hc; lia.
  - split; [done|].
    intros r c Hr Hc Hcase.
    destruct (decide (r = 0)) as [->|Hr0].
    + rewrite Hr2 by done. by rewrite lev_spec_row0.
    + assert (c = 0) as -> by lia.
      rewrite Hc2 by lia. by rewrite lev_spec_col0.
Qed.

Lemma lev_cell m j i :
  1 ≤ j ≤ length b → 1 ≤ i ≤ length a →
  known (length b) (length a) lev_spec j i m →
  Nat.min (Nat.min (mget m j (i - 1) + 1) (mget m (j - 1) i + 1))
          (mget m (j - 1) (i - 1)
           + (if bool_decide (a !! (i - 1) = b !! (j - 1)) then 0 else 1))
  = lev_spec j i.
Proof.
  intros Hj Hi [_ Hk].
  destruct j as [|j]; [lia|]. destruct i as [|i]; [lia|].
  replace (S j - 1) with j by lia. replace (S i - 1) with i by lia.
  rewrite !Hk by lia.
  destruct (lookup_lt_is_Some_2 a i) as [x Hx]; [lia|].
  destruct (lookup_lt_is_Some_2 b j) as [y Hy]; [lia|].
  unfold lev_spec.
  rewrite (reverse_take_S a i x Hx), (reverse_take_S b j y Hy), lev_cons_cons.
  rewrite Hx, Hy.
  destruct (decide (x = y)) as [->|Hne].
  - by rewrite bool_decide_eq_true_2.
  - rewrite bool_decide_eq_false_2; [done | congruence].
Qed.

Lemma calculateLevenshteinDistance_lev :
  calculateLevenshteinDistance a b = lev (reverse a) (reverse b).
Proof.
  unfold calculateLevenshteinDistance.
  destruct (Nat.eqb_spec (length a) 0) as [Ha|Ha].
  { rewrite (nil_length_inv _ Ha), reverse_nil. simpl.
    by rewrite length_reverse. }
  destruct (Nat.eqb_spec (length b) 0) as [Hb|Hb].
  { rewrite (nil_length_inv _ Hb), reverse_nil, lev_nil_r.
    by rewrite length_reverse. }
  cbv zeta.
  pose proof (fill_table (length b) (length a) lev_spec
    (fun m j i =>
       Nat.min (Nat.min (mget m j (i - 1) + 1) (mget m (j - 1) i + 1))
               (mget m (j - 1) (i - 1)
                + (if bool_decide (a !! (i - 1) = b !! (j - 1)) then 0 else 1)))
    lev_cell _ lev_border) as Hfill.
  rewrite (known_all _ _ _ _ _ _ Hfill) by lia.
  unfold lev_spec. by rewrite !take_ge by lia.
Qed.
End LevTable.

(** ** The recurrences against their declarative meaning *)

Section Meaning.
Context {A : Type} `{EqDecision A}.
Implicit Types a b c : list A.

Lemma lev_delete_le x a b : lev (x :: a) b ≤ lev a b + 1.
Proof.
  destruct b as [|y b]; [rewrite !lev_nil_r; simpl; lia|].
  rewrite lev_cons_cons. lia.
Qed.

Lemma lev_insert_le y a b : lev a (y :: b) ≤ lev a b + 1.
Proof. rewrite (lev_sym a (y :: b)), (lev_sym a b). apply lev_delete_le. Qed.

Lemma lev_edits a : ∀ b, edits a b (lev a b).
Proof.
  induction a as [|x a IHa]; intros b.
  - induction b as [|y b IHb]; [constructor|]. simpl in *. by constructor.
  - induction b as [|y b IHb].
    + rewrite lev_nil_r. specialize (IHa []). rewrite lev_nil_r in IHa.
      simpl. by constructor.
    + rewrite lev_cons_cons.
      pose proof (edits_delete x _ _ _ (IHa (y :: b))) as Hdel.
      pose proof (edits_insert y _ _ _ IHb) as Hins.
      assert (edits (x :: a) (y :: b)
                (lev a b + (if decide (x = y) then 0 else 1))) as Hsub.
      { case_decide as Hxy.
        - subst y. rewrite Nat.add_0_r. by constructor.
        - rewrite Nat.add_1_r. by constructor. }
      replace (S (lev a (y :: b))) with (lev a (y :: b) + 1) in Hdel by lia.
      replace (S (lev (x :: a) b)) with (lev (x :: a) b + 1) in Hins by lia.
      destruct (Nat.min_spec (lev a (y :: b) + 1) (lev (x :: a) b + 1))
        as [[_ ->]|[_ ->]];
        match goal with |- edits _ _ (?p `min` ?q) =>
          destruct (Nat.min_spec p q) as [[_ ->]|[_ ->]] end; done.
Qed.

Lemma lev_least a b n : edits a b n → lev a b ≤ n.
Proof.
  induction 1 as [|x a b n _ IH|y a b n _ IH|x a b n _ IH|x y a b n _ IH].
  - done.
  - pose proof (lev_delete_le x a b). lia.
  - pose proof (lev_insert_le y a b). lia.
  - rewrite lev_cons_cons, decide_True by done. lia.
  - rewrite lev_cons_cons. case_decide; lia.
Qed.

Lemma edits_app a b n a' b' n' :
  edits a b n → edits a' b' n' → edits (a ++ a') (b ++ b') (n + n').
Proof. induction 1; intros; simpl; [done | by constructor; auto..]. Qed.

Lemma edits_reverse a b n : edits a b n → edits (reverse a) (reverse b) n.
Proof.
  induction 1 as [|x a b n _ IH|y a b n _ IH|x a b n _ IH|x y a b n _ IH];
    rewrite ?reverse_cons.
  - constructor.
  - rewrite <-(app_nil_r (reverse b)). replace (S n) with (n + 1) by lia.
    apply edits_app; [done|]. apply edits_delete, edits_nil.
  - rewrite <-(app_nil_r (reverse a)). replace (S n) with (n + 1) by lia.
    apply edits_app; [done|]. apply edits_insert, edits_nil.
  - rewrite <-(Nat.add_0_r n).
    apply edits_app; [done|]. apply edits_keep, edits_nil.
  - replace (S n) with (n + 1) by lia.
    apply edits_app; [done|]. apply edits_substitute, edits_nil.
Qed.

Lemma lev_is_edit_distance a b : is_edit_distance a b (lev a b).
Proof. split; [apply lev_edits | apply lev_least]. Qed.

Lemma lev_reverse a b : lev (reverse a) (reverse b) = lev a b.
Proof.
  apply Nat.le_antisymm.
  - apply lev_least, edits_reverse, lev_edits.
  - apply lev_least.
    pose proof (edits_reverse _ _ _ (lev_edits (reverse a) (reverse b))) as He.
    by rewrite !reverse_involutive in He.
Qed.

Lemma lcs_len_nil_r a : lcs_len a [] = 0.
Proof. by destruct a. Qed.

Lemma lcs_len_cons_cons x y a b :
  lcs_len (x :: a) (y :: b)
  = if decide (x = y) then lcs_len a b + 1
    else Nat.max (lcs_len a (y :: b)) (lcs_len (x :: a) b).
Proof. reflexivity. Qed.

Lemma lcs_len_upper a : ∀ b c,
  c `sublist_of` a → c `sublist_of` b → length c ≤ lcs_len a b.
Proof.
  induction a as [|x a IHa]; intros b c Ha Hb.
  { apply sublist_nil_r in Ha as ->. simpl. lia. }
  induction b as [|y b IHb].
  { apply sublist_nil_r in Hb as ->. simpl. lia. }
  rewrite lcs_len_cons_cons.
  apply sublist_cons_r in Ha as [Ha|(c' & -> & Ha)];
    apply sublist_cons_r in Hb as [Hb|(c'' & Hc & Hb)].
  - pose proof (IHa b c Ha Hb). pose proof (IHa (y :: b) c Ha (sublist_cons _ _ _ Hb)).
    case_decide; lia.
  - subst c. case_decide.
    + assert (c'' `sublist_of` a) as Ha'.
      { etrans; [|exact Ha]. by apply sublist_cons. }
      pose proof (IHa b c'' Ha' Hb). simpl. lia.
    + pose proof (IHa (y :: b) (y :: c'') Ha (sublist_skip _ _ _ Hb)). lia.
  - case_decide.
    + assert (c' `sublist_of` b) as Hb'.
      { etrans; [|exact Hb]. by apply sublist_cons. }
      pose proof (IHa b c' Ha Hb'). simpl. lia.
    + pose proof (IHb Hb). lia.
  - injection Hc as -> ->. rewrite decide_True by done.
    pose proof (IHa b _ Ha Hb). simpl. lia.
Qed.

Lemma lcs_len_witness a : ∀ b,
  ∃ c, c `sublist_of` a ∧ c `sublist_of` b ∧ length c = lcs_len a b.
Proof.
  induction a as [|x a IHa]; intros b.
  { exists []. split_and!; [done | apply sublist_nil_l | done]. }
  induction b as [|y b IHb].
  { exists []. split_and!; [apply sublist_nil_l | done | done]. }
  rewrite lcs_len_cons_cons. case_decide as Hxy.
  - subst y. destruct (IHa b) as (c & Ha & Hb & Hlen).
    exists (x :: c). split_and!; [by constructor..|]. simpl. lia.
  - destruct (Nat.max_spec (lcs_len a (y :: b)) (lcs_len (x :: a) b))
      as [[_ ->]|[_ ->]].
    + destruct IHb as (c & Ha & Hb & Hlen).
      exists c. split_and!; [done | by constructor | done].
    + destruct (IHa (y :: b)) as (c & Ha & Hb & Hlen).
      exists c. split_and!; [by constructor | done | done].
Qed.

Lemma sublist_reverse a b : a `sublist_of` b → reverse a `sublist_of` reverse b.
Proof.
  induction 1 as [|x a b _ IH|x a b _ IH]; rewrite ?reverse_cons.
  - done.
  - by apply sublist_app.
  - by apply sublist_inserts_r.
Qed.

Lemma lcs_len_is_lcs_length a b : is_lcs_length a b (lcs_len a b).
Proof. split; [apply lcs_len_witness | apply lcs_len_upper]. Qed.

Lemma is_lcs_length_reverse a b k :
  is_lcs_length (reverse a) (reverse b) k → is_lcs_length a b k.
Proof.
  intros [(c & Ha & Hb & Hlen) Hup]. split.
  - exists (reverse c). split_and!.
    + rewrite <-(reverse_involutive a). by apply sublist_reverse.
    + rewrite <-(reverse_involutive b). by apply sublist_reverse.
    + by rewrite length_reverse.
  - intros c' Ha' Hb'. rewrite <-(length_reverse c').
    apply Hup; by apply sublist_reverse.
Qed.

Lemma is_lcs_length_unique a b k k' :
  is_lcs_length a b k → is_lcs_length a b k' → k = k'.
Proof.
  intros [(c & Ha & Hb & Hlen) Hup] [(c' & Ha' & Hb' & Hlen') Hup'].
  apply Nat.le_antisymm.
  - rewrite <-Hlen. by apply Hup'.
  - rewrite <-Hlen'. by apply Hup.
Qed.
End Meaning.

(** ** Integers as doubles *)

Section Doubles.
Local Open Scope Z_scope.

Lemma digits2_pos_lower (m : positive) :
  2 ^ (Zpos (digits2_pos m) - 1) ≤ Zpos m.
Proof.
  induction m as [m IH|m IH|]; simpl digits2_pos; [| |done].
  - rewrite Pos2Z.inj_succ.
    replace (Z.succ (Zpos (digits2_pos m)) - 1)
      with (Z.succ (Zpos (digits2_pos m) - 1)) by lia.
    rewrite Z.pow_succ_r by lia. lia.
  - rewrite Pos2Z.inj_succ.
    replace (Z.succ (Zpos (digits2_pos m)) - 1)
      with (Z.succ (Zpos (digits2_pos m) - 1)) by lia.
    rewrite Z.pow_succ_r by lia. lia.
Qed.

Lemma shr_1_lower k mrs :
  0 ≤ k → 2 ^ (k + 1) ≤ shr_m mrs → 2 ^ k ≤ shr_m (shr_1 mrs).
Proof.
  intros Hk. destruct mrs as [m r s]. simpl shr_m at 1.
  rewrite Z.pow_add_r, Z.pow_1_r by lia.
  pose proof (Z.pow_pos_nonneg 2 k) as Hpos.
  destruct m as [|[p|p|]|p]; simpl; lia.
Qed.

Lemma iter_shr_1_lower p : ∀ k mrs,
  0 ≤ k → 2 ^ (k + Zpos p) ≤ shr_m mrs → 2 ^ k ≤ shr_m (SpecFloat.iter_pos shr_1 p mrs).
Proof.
  induction p as [p IH|p IH|]; intros k mrs Hk Hm; simpl.
  - apply IH; [done|]. apply IH; [lia|]. apply shr_1_lower; [lia|].
    by replace (k + Zpos p + Zpos p + 1) with (k + Zpos p~1) by lia.
  - apply IH; [done|]. apply IH; [lia|].
    by replace (k + Zpos p + Zpos p) with (k + Zpos p~0) by lia.
  - by apply shr_1_lower.
Qed.

Lemma shr_m_of_loc m l : shr_m (shr_record_of_loc m l) = m.
Proof. by destruct l as [|[]]. Qed.

Lemma shr_fexp_positive (m : positive) e l :
  emin prec emax ≤ e →
  0 < shr_m (fst (shr_fexp prec emax (Zpos m) e l))
  ∧ emin prec emax ≤ snd (shr_fexp prec emax (Zpos m) e l).
Proof.
  intros He. unfold shr_fexp, shr.
  pose proof (digits2_pos_lower m) as Hd.
  assert (fexp prec emax (Zdigits2 (Zpos m) + e) - e
          ≤ Z.max 0 (Zpos (digits2_pos m) - 1)) as Hn.
  { unfold fexp, emin, prec, emax in *. simpl Zdigits2. lia. }
  destruct (fexp prec emax (Zdigits2 (Zpos m) + e) - e) as [|n|n] eqn:Hfe;
    simpl fst; simpl snd; rewrite ?shr_m_of_loc; try lia.
  split; [|lia].
  assert (2 ^ 0 ≤ shr_m (SpecFloat.iter_pos shr_1 n (shr_record_of_loc (Zpos m) l)));
    [|simpl in *; lia].
  apply iter_shr_1_lower; [done|]. rewrite shr_m_of_loc.
  etrans; [|exact Hd]. apply Z.pow_le_mono_r; lia.
Qed.

Lemma round_nearest_even_positive m l : 0 < m → 0 < round_nearest_even m l.
Proof. intros Hm. destruct l as [|[]]; simpl; try destruct (Z.even m); lia. Qed.

Lemma binary_round_aux_positive (m : positive) e l :
  emin prec emax ≤ e →
  is_positive_double (binary_round_aux prec emax false (Zpos m) e l).
Proof.
  intros He. unfold binary_round_aux.
  destruct (shr_fexp_positive m e l He) as [Hm1 He1].
  destruct (shr_fexp prec emax (Zpos m) e l) as [mrs1 e1]. simpl in Hm1, He1.
  pose proof (round_nearest_even_positive _ (loc_of_shr_record mrs1) Hm1) as Hr.
  destruct (round_nearest_even (shr_m mrs1) (loc_of_shr_record mrs1))
    as [|m2|m2]; [lia| |lia].
  destruct (shr_fexp_positive m2 e1 loc_Exact He1) as [Hm2 He2].
  destruct (shr_fexp prec emax (Zpos m2) e1 loc_Exact) as [mrs2 e2].
  simpl in Hm2, He2.
  destruct (shr_m mrs2) as [|m3|m3]; [lia| |lia].
  by case Z.leb.
Qed.

(** A positive integer is a positive double (an infinity from 2^1024 on). *)
Lemma of_nat_positive n : (0 < n)%nat → is_positive_double (of_nat n).
Proof.
  intros Hn. unfold of_nat, binary_normalize.
  destruct (Z.of_nat n) as [|m|m] eqn:Hz; [lia| |lia].
  unfold binary_round, shl_align.
  assert (emin prec emax ≤ fexp prec emax (Zpos (digits2_pos m) + 0)) as Hf.
  { unfold fexp. lia. }
  destruct (fexp prec emax (Zpos (digits2_pos m) + 0) - 0) eqn:Hd;
    apply binary_round_aux_positive; unfold emin, prec, emax in *; lia.
Qed.

Lemma of_nat_0 : of_nat 0 = S754_zero false.
Proof. reflexivity. Qed.

Lemma of_nat_1 : of_nat 1 = S754_finite false 4503599627370496 (-52).
Proof. vm_compute. reflexivity. Qed.

(** [1 - 0 / n] is [1] for every positive integer [n]. *)
Lemma similarity_of_distance_0 n :
  (0 < n)%nat →
  SFsub prec emax (of_nat 1) (SFdiv prec emax (of_nat 0) (of_nat n)) = of_nat 1.
Proof.
  intros Hn. pose proof (of_nat_positive n Hn) as Hp.
  rewrite of_nat_0, of_nat_1.
  by destruct (of_nat n) as [[]|[]| |[] ? ?].
Qed.
End Doubles.

(** ** calculateLevenshteinDistance and fuzzyMatch *)

Lemma calculateLevenshteinDistance_eq_lev (a b : list N) :
  calculateLevenshteinDistance a b = lev a b.
Proof. by rewrite calculateLevenshteinDistance_lev, lev_reverse. Qed.

Lemma calculateLevenshteinDistance_is_edit_distance (a b : list N) :
  is_edit_distance a b (calculateLevenshteinDistance a b).
Proof. rewrite calculateLevenshteinDistance_eq_lev. apply lev_is_edit_distance. Qed.

(** C8. The distance computed by [calculateLevenshteinDistance] is symmetric:
    for all strings [a] and [b],
    [calculateLevenshteinDistance a b = calculateLevenshteinDistance b a]. *)
Theorem calculateLevenshteinDistance_sym (a b : list N) :
  calculateLevenshteinDistance a b = calculateLevenshteinDistance b a.
Proof. rewrite !calculateLevenshteinDistance_eq_lev. apply lev_sym. Qed.

(** C3. [fuzzyMatch] is true when both strings are empty, false when exactly
    one of them is empty, and otherwise it is the comparison
    [1 - d / max(len1, len2) >= tolerance] in double arithmetic, where [d],
    the value of [calculateLevenshteinDistance], is the unit-cost
    insert/delete/substitute edit distance of the two strings. *)
Theorem fuzzyMatch_rule (str1 str2 : list N) (tolerance : spec_float) :
  is_edit_distance str1 str2 (calculateLevenshteinDistance str1 str2) ∧
  fuzzyMatch str1 str2 tolerance =
    match str1, str2 with
    | [], [] => true
    | [], _ :: _ | _ :: _, [] => false
    | _ :: _, _ :: _ =>
        SFleb tolerance
          (SFsub prec emax (of_nat 1)
             (SFdiv prec emax
                (of_nat (calculateLevenshteinDistance str1 str2))
                (of_nat (Nat.max (length str1) (length str2)))))
    end.
Proof.
  split; [apply calculateLevenshteinDistance_is_edit_distance|].
  destruct str1 as [|c1 str1], str2 as [|c2 str2]; reflexivity.
Qed.

(** C9. A string matches itself under every tolerance that is at most 1. *)
Theorem fuzzyMatch_refl (s : list N) (t : spec_float) :
  SFleb t (of_nat 1) = true → fuzzyMatch s s t = true.
Proof.
  intros Ht. destruct s as [|c s]; [done|].
  unfold fuzzyMatch. cbn [falsy andb orb].
  destruct (Nat.eqb_spec (Nat.max (length (c :: s)) (length (c :: s))) 0) as [|_];
    [done|].
  rewrite calculateLevenshteinDistance_eq_lev, lev_refl.
  rewrite similarity_of_distance_0; [done | simpl; lia].
Qed.

(** The comparison is one of doubles: with one edit in three code units the
    computed similarity is the double just above 2/3, so a tolerance equal to
    that double is met although it is greater than 2/3. *)
Remark fuzzyMatch_rounding :
  let t := S754_finite false 6004799503160662 (-53) in
  fuzzyMatch (str "abc") (str "abd") t = true
  ∧ (2 * 2 ^ 53 < 3 * 6004799503160662)%Z.
Proof. split; vm_compute; reflexivity. Qed.

Lemma fuzzyMatch_refl_witness :
  SFleb tolerance_0_8 (of_nat 1) = true
  ∧ fuzzyMatch (str "IBAN") (str "IBAN") tolerance_0_8 = true.
Proof.
  split; [vm_compute; reflexivity|].
  apply (fuzzyMatch_refl (str "IBAN") tolerance_0_8). vm_compute. reflexivity.
Defined.

(** ** Array.from *)

Lemma Array_from_ind (P : list N → Prop) :
  P [] →
  (∀ c, P [c]) →
  (∀ c d rest, is_high c && is_low d = true → P rest → P (c :: d :: rest)) →
  (∀ c d rest, is_high c && is_low d = false → P (d :: rest) → P (c :: d :: rest)) →
  ∀ s, P s.
Proof.
  intros Hnil Hone Hpair Hlone s.
  assert (∀ n s, length s ≤ n → P s) as Hall; [|by apply (Hall (length s))].
  clear s. induction n as [|n IH]; intros [|c [|d rest]] Hlen; simpl in *;
    try done; try lia.
  destruct (is_high c && is_low d) eqn:Hcd.
  - apply Hpair; [done|]. apply IH. lia.
  - apply Hlone; [done|]. apply IH. simpl. lia.
Qed.

Lemma Array_from_pair c d rest :
  is_high c && is_low d = true →
  Array_from (c :: d :: rest) = [c; d] :: Array_from rest.
Proof. intros Hcd. simpl. by rewrite Hcd. Qed.

Lemma Array_from_lone c d rest :
  is_high c && is_low d = false →
  Array_from (c :: d :: rest) = [c] :: Array_from (d :: rest).
Proof. intros Hcd. cbn [Array_from]. by rewrite Hcd. Qed.

(** The elements of [Array.from(s)], joined, are [s]. *)
Lemma concat_Array_from s : concat (Array_from s) = s.
Proof.
  induction s as [|c|c d rest Hcd IH|c d rest Hcd IH] using Array_from_ind.
  - done.
  - done.
  - rewrite Array_from_pair by done. simpl. by rewrite IH.
  - rewrite Array_from_lone by done. cbn [concat app]. by rewrite IH.
Qed.

Lemma Array_from_atomic s : Forall atomic (Array_from s).
Proof.
  induction s as [|c|c d rest Hcd IH|c d rest Hcd IH] using Array_from_ind.
  - constructor.
  - repeat constructor. done.
  - rewrite Array_from_pair by done. constructor; [|done].
    split; [done|]. by rewrite Array_from_pair.
  - rewrite Array_from_lone by done. constructor; [|done]. by split.
Qed.

Lemma high_not_low c : is_low c = true → is_high c = false.
Proof.
  unfold is_low, is_high, in_range. intros Hc.
  apply andb_true_iff in Hc as [Hlo Hhi].
  apply N.leb_le in Hlo. apply andb_false_iff. right. apply N.leb_gt. lia.
Qed.

Lemma Array_from_app v1 : ∀ v2,
  splits_pair v1 v2 = false →
  Array_from (v1 ++ v2) = Array_from v1 ++ Array_from v2.
Proof.
  induction v1 as [|c|c d rest Hcd IH|c d rest Hcd IH] using Array_from_ind;
    intros v2 Hsplit.
  - done.
  - destruct v2 as [|d v2]; [done|].
    unfold splits_pair in Hsplit. simpl in Hsplit.
    simpl app. by rewrite Array_from_lone.
  - change ((c :: d :: rest) ++ v2) with (c :: d :: (rest ++ v2)).
    rewrite !Array_from_pair by done. cbn [app]. f_equal.
    apply IH. destruct rest as [|e rest].
    + unfold splits_pair. done.
    + by rewrite <-Hsplit.
  - change ((c :: d :: rest) ++ v2) with (c :: ((d :: rest) ++ v2)).
    change ((d :: rest) ++ v2) with (d :: (rest ++ v2)) at 1.
    rewrite !Array_from_lone by done. cbn [app]. f_equal.
    apply (IH v2). by rewrite <-Hsplit.
Qed.

Lemma Array_from_head d rest :
  ∃ u us, Array_from (d :: rest) = u :: us ∧ head u = Some d.
Proof.
  destruct rest as [|e rest]; [by eexists _, _|].
  destruct (is_high d && is_low e) eqn:Hde.
  - rewrite Array_from_pair by done. by eexists _, _.
  - rewrite Array_from_lone by done. by eexists _, _.
Qed.

Lemma Array_from_units_ok s : units_ok (Array_from s).
Proof.
  induction s as [|c|c d rest Hcd IH|c d rest Hcd IH] using Array_from_ind.
  - done.
  - done.
  - rewrite Array_from_pair by done.
    destruct (Array_from rest) as [|v us] eqn:Hr; [done|].
    split; [|done]. unfold splits_pair. simpl.
    apply andb_true_iff in Hcd as [_ Hd]. rewrite (high_not_low d Hd).
    by destruct (head v).
  - rewrite Array_from_lone by done.
    destruct (Array_from_head d rest) as (v & us & Hr & Hv).
    rewrite Hr in IH |- *. split; [|done].
    unfold splits_pair. simpl. by rewrite Hv.
Qed.

(** ** The table and the trace of diffStrings *)

Lemma olds_app es1 es2 : olds (es1 ++ es2) = olds es1 ++ olds es2.
Proof. induction es1 as [|[] es1 IH]; simpl; by rewrite ?IH. Qed.

Lemma news_app es1 es2 : news (es1 ++ es2) = news es1 ++ news es2.
Proof. induction es1 as [|[] es1 IH]; simpl; by rewrite ?IH. Qed.

Lemma keeps_app es1 es2 : keeps (es1 ++ es2) = keeps es1 ++ keeps es2.
Proof. induction es1 as [|[] es1 IH]; simpl; by rewrite ?IH. Qed.

Section DiffTable.
Variables oldChars newChars : list (list N).

(** What cell [i][j] of the table holds. *)
Let lcs_spec (i j : nat) : nat :=
  lcs_len (reverse (take i oldChars)) (reverse (take j newChars)).

Lemma lcs_spec_row0 j : lcs_spec 0 j = 0.
Proof. unfold lcs_spec. by rewrite take_0, reverse_nil. Qed.

Lemma lcs_spec_col0 i : lcs_spec i 0 = 0.
Proof. unfold lcs_spec. by rewrite take_0, reverse_nil, lcs_len_nil_r. Qed.

Lemma lcs_spec_S i j x y :
  oldChars !! i = Some x → newChars !! j = Some y →
  lcs_spec (S i) (S j)
  = if decide (x = y) then lcs_spec i j + 1
    else Nat.max (lcs_spec i (S j)) (lcs_spec (S i) j).
Proof.
  intros Hx Hy. unfold lcs_spec.
  by rewrite (reverse_take_S _ _ _ Hx), (reverse_take_S _ _ _ Hy), lcs_len_cons_cons.
Qed.

Lemma lcs_cell m i j :
  1 ≤ i ≤ length oldChars → 1 ≤ j ≤ length newChars →
  known (length oldChars) (length newChars) lcs_spec i j m →
  (if bool_decide (oldChars !! (i - 1) = newChars !! (j - 1))
   then mget m (i - 1) (j - 1) + 1
   else Nat.max (mget m (i - 1) j) (mget m i (j - 1)))
  = lcs_spec i j.
Proof.
  intros Hi Hj [_ Hk].
  destruct i as [|i]; [lia|]. destruct j as [|j]; [lia|].
  replace (S i - 1) with i by lia. replace (S j - 1) with j by lia.
  rewrite !Hk by lia.
  destruct (lookup_lt_is_Some_2 oldChars i) as [x Hx]; [lia|].
  destruct (lookup_lt_is_Some_2 newChars j) as [y Hy]; [lia|].
  rewrite (lcs_spec_S i j x y Hx Hy), Hx, Hy.
  destruct (decide (x = y)) as [->|Hne].
  - by rewrite bool_decide_eq_true_2.
  - rewrite bool_decide_eq_false_2; [done | congruence].
Qed.

Lemma diff_table_spec i j :
  i ≤ length oldChars → j ≤ length newChars →
  mget (diff_table oldChars newChars) i j = lcs_spec i j.
Proof.
  intros Hi Hj.
  pose proof (fill_table (length oldChars) (length newChars) lcs_spec
    (fun m i j =>
       if bool_decide (oldChars !! (i - 1) = newChars !! (j - 1))
       then mget m (i - 1) (j - 1) + 1
       else Nat.max (mget m (i - 1) j) (mget m i (j - 1)))
    lcs_cell
    (replicate (length oldChars + 1) (replicate (length newChars + 1) 0)))
    as Hfill.
  eapply known_all; [apply Hfill | done..].
  split.
  - rewrite !Nat.add_1_r. apply replicate_dims.
  - intros r c _ _ Hcase. rewrite mget_replicate.
    destruct (decide (r = 0)) as [->|Hr]; [by rewrite lcs_spec_row0|].
    assert (c = 0) as -> by lia. by rewrite lcs_spec_col0.
Qed.

(** The three branches of the loop body. *)
Lemma backtrace_keep fuel m i j result x :
  oldChars !! i = Some x → newChars !! j = Some x →
  backtrace (S fuel) oldChars newChars m (S i) (S j) result
  = backtrace fuel oldChars newChars m i j (to_span (Keep x) :: result).
Proof.
  intros Hx Hy. cbn [backtrace Nat.ltb Nat.leb orb andb].
  replace (S i - 1) with i by lia. replace (S j - 1) with j by lia.
  rewrite Hx, Hy, bool_decide_eq_true_2 by done. done.
Qed.

Lemma backtrace_add fuel m i j result y :
  newChars !! j = Some y →
  i = 0 ∨ (oldChars !! (i - 1) ≠ Some y ∧ mget m (i - 1) (S j) ≤ mget m i j) →
  backtrace (S fuel) oldChars newChars m i (S j) result
  = backtrace fuel oldChars newChars m i j (to_span (Add y) :: result).
Proof.
  intros Hy Hcase. cbn [backtrace].
  replace (S j - 1) with j by lia. rewrite Hy.
  replace ((0 <? i) || (0 <? S j)) with true by (by rewrite orb_true_r).
  destruct Hcase as [->|[Hne Hle]]; [done|].
  rewrite (bool_decide_eq_false_2 _ Hne), andb_false_r.
  apply Nat.leb_le in Hle. rewrite Hle, orb_true_r. done.
Qed.

Lemma backtrace_del fuel m i j result x :
  oldChars !! i = Some x →
  j = 0 ∨ (newChars !! (j - 1) ≠ Some x ∧ mget m (S i) (j - 1) < mget m i j) →
  backtrace (S fuel) oldChars newChars m (S i) j result
  = backtrace fuel oldChars newChars m i j (to_span (Del x) :: result).
Proof.
  intros Hx Hcase. cbn [backtrace].
  replace (S i - 1) with i by lia. rewrite Hx.
  destruct Hcase as [->|[Hne Hlt]]; [done|].
  replace ((0 <? S i) || (0 <? j)) with true by done.
  rewrite bool_decide_eq_false_2 by congruence. rewrite andb_false_r.
  cbn [Nat.eqb orb].
  destruct (Nat.leb_spec (mget m i j) (mget m (S i) (j - 1))) as [|_]; [lia|].
  rewrite andb_false_r.
  apply Nat.ltb_lt in Hlt. rewrite Hlt, orb_true_r. done.
Qed.

(** The loop ends within [i + j] iterations, and what it puts in front of
    [result] is a trace of the first [i] old and the first [j] new elements
    that keeps as many elements as the table says. *)
Lemma backtrace_trace fuel : ∀ i j result,
  i ≤ length oldChars → j ≤ length newChars → i + j ≤ fuel →
  ∃ es,
    backtrace fuel oldChars newChars (diff_table oldChars newChars) i j result
      = Some (map to_span es ++ result)
    ∧ olds es = take i oldChars
    ∧ news es = take j newChars
    ∧ length (keeps es) = lcs_spec i j.
Proof.
  induction fuel as [|fuel IH]; intros i j result Hi Hj Hfuel.
  { assert (i = 0) as -> by lia. assert (j = 0) as -> by lia.
    exists []. by rewrite lcs_spec_row0. }
  assert (∀ es e, map to_span es ++ to_span e :: result
                  = map to_span (es ++ [e]) ++ result) as Hsnoc.
  { intros es e. by rewrite map_app, <-app_assoc. }
  destruct i as [|i], j as [|j].
  - exists []. by rewrite lcs_spec_row0.
  - (* only new elements are left *)
    destruct (lookup_lt_is_Some_2 newChars j) as [y Hy]; [lia|].
    destruct (IH 0 j (to_span (Add y) :: result)) as (es & Hrun & Ho & Hn & Hk);
      [lia..|].
    exists (es ++ [Add y]). split_and!.
    + rewrite (backtrace_add _ _ _ _ _ y) by auto. by rewrite Hrun, Hsnoc.
    + by rewrite olds_app, Ho, app_nil_r.
    + by rewrite news_app, Hn, (take_S_r _ _ _ Hy).
    + by rewrite keeps_app, app_nil_r, Hk, !lcs_spec_row0.
  - (* only old elements are left *)
    destruct (lookup_lt_is_Some_2 oldChars i) as [x Hx]; [lia|].
    destruct (IH i 0 (to_span (Del x) :: result)) as (es & Hrun & Ho & Hn & Hk);
      [lia..|].
    exists (es ++ [Del x]). split_and!.
    + rewrite (backtrace_del _ _ _ _ _ x) by auto. by rewrite Hrun, Hsnoc.
    + by rewrite olds_app, Ho, (take_S_r _ _ _ Hx).
    + by rewrite news_app, Hn, app_nil_r.
    + by rewrite keeps_app, app_nil_r, Hk, !lcs_spec_col0.
  - destruct (lookup_lt_is_Some_2 oldChars i) as [x Hx]; [lia|].
    destruct (lookup_lt_is_Some_2 newChars j) as [y Hy]; [lia|].
    pose proof (lcs_spec_S i j x y Hx Hy) as Hspec.
    destruct (decide (x = y)) as [->|Hne].
    + destruct (IH i j (to_span (Keep y) :: result))
        as (es & Hrun & Ho & Hn & Hk); [lia..|].
      exists (es ++ [Keep y]). split_and!.
      * rewrite (backtrace_keep _ _ _ _ _ y) by done. by rewrite Hrun, Hsnoc.
      * by rewrite olds_app, Ho, (take_S_r _ _ _ Hx).
      * by rewrite news_app, Hn, (take_S_r _ _ _ Hy).
      * rewrite keeps_app, length_app, Hk, Hspec. done.
    + destruct (Nat.le_gt_cases (lcs_spec i (S j)) (lcs_spec (S i) j)) as [Hle|Hlt].
      * destruct (IH (S i) j (to_span (Add y) :: result))
          as (es & Hrun & Ho & Hn & Hk); [lia..|].
        exists (es ++ [Add y]). split_and!.
        -- rewrite (backtrace_add _ _ _ _ _ y); [by rewrite Hrun, Hsnoc | done |].
           right. replace (S i - 1) with i by lia.
           rewrite !diff_table_spec by lia. split; [congruence | done].
        -- by rewrite olds_app, Ho, app_nil_r.
        -- by rewrite news_app, Hn, (take_S_r _ _ _ Hy).
        -- rewrite keeps_app, app_nil_r, Hk, Hspec. lia.
      * destruct (IH i (S j) (to_span (Del x) :: result))
          as (es & Hrun & Ho & Hn & Hk); [lia..|].
        exists (es ++ [Del x]). split_and!.
        -- rewrite (backtrace_del _ _ _ _ _ x); [by rewrite Hrun, Hsnoc | done |].
           right. replace (S j - 1) with j by lia.
           rewrite !diff_table_spec by lia. split; [congruence | done].
        -- by rewrite olds_app, Ho, (take_S_r _ _ _ Hx).
        -- by rewrite news_app, Hn, app_nil_r.
        -- rewrite keeps_app, app_nil_r, Hk, Hspec. lia.
Qed.
End DiffTable.

(** ** Coalescing *)

Lemma coalesce_step_snoc acc l c :
  coalesce_step (acc ++ [l]) c
  = if same_class l c then acc ++ [merge l c] else acc ++ [l; c].
Proof.
  unfold coalesce_step. rewrite last_snoc. fold (same_class l c).
  destruct (same_class l c).
  - rewrite length_app. simpl.
    rewrite insert_app_r_alt by lia.
    by replace (length acc + 1 - 1 - length acc) with 0 by lia.
  - by rewrite <-app_assoc.
Qed.

Lemma foldl_coalesce_step rest : ∀ acc l,
  foldl coalesce_step (acc ++ [l]) rest = acc ++ group l rest.
Proof.
  induction rest as [|c rest IH]; intros acc l; [done|].
  cbn [foldl group]. rewrite coalesce_step_snoc.
  destruct (same_class l c); [apply IH|].
  replace (acc ++ [l; c]) with ((acc ++ [l]) ++ [c]) by by rewrite <-app_assoc.
  by rewrite IH, <-app_assoc.
Qed.

Lemma same_class_eq l c :
  same_class l c = true → added l = added c ∧ removed l = removed c.
Proof.
  unfold same_class. intros Hs. apply andb_true_iff in Hs as [Ha Hr].
  by apply bool_decide_eq_true_1 in Ha; apply bool_decide_eq_true_1 in Hr.
Qed.

Lemma group_values p : class_only p → ∀ rest l,
  concat (map value (List.filter p (group l rest)))
  = concat (map value (List.filter p (l :: rest))).
Proof.
  intros Hp rest.
  induction rest as [|c rest IH]; intros l; [done|].
  cbn [group]. destruct (same_class l c) eqn:Hs.
  - rewrite IH. apply same_class_eq in Hs as [Ha Hr].
    cbn [List.filter].
    rewrite (Hp (merge l c) l), <-(Hp l c) by done.
    destruct (p l); [|done]. simpl. by rewrite app_assoc.
  - cbn [List.filter] in *. destruct (p l); simpl; by rewrite IH.
Qed.

Lemma group_head l : ∀ rest,
  ∃ l' tl, group l rest = l' :: tl ∧ added l' = added l ∧ removed l' = removed l.
Proof.
  intros rest. revert l.
  induction rest as [|c rest IH]; intros l; [by eexists _, _|].
  cbn [group]. destruct (same_class l c); [|by eexists _, _].
  destruct (IH (merge l c)) as (l' & tl & -> & Ha & Hr). by eexists _, _.
Qed.

Lemma group_distinct_neighbours rest : ∀ l, distinct_neighbours (group l rest).
Proof.
  induction rest as [|c rest IH]; intros l; [by intros [|k] s1 s2|].
  cbn [group]. destruct (same_class l c) eqn:Hs; [apply IH|].
  intros [|k] s1 s2 H1 H2; [|by apply (IH c k)].
  destruct (group_head c rest) as (c' & tl & Hg & Ha & Hr).
  rewrite Hg in H2. simpl in H1, H2. injection H1 as <-. injection H2 as <-.
  unfold same_class in *. by rewrite Ha, Hr.
Qed.

Lemma group_Forall (Q : span → Prop) :
  (∀ l c, Q l → Q c → same_class l c = true → Q (merge l c)) →
  ∀ rest l, Forall Q (l :: rest) → Forall Q (group l rest).
Proof.
  intros Hmerge. induction rest as [|c rest IH]; intros l Hall; [done|].
  apply Forall_cons in Hall as [Hl Hall].
  pose proof Hall as [Hc Hrest]%Forall_cons.
  cbn [group]. destruct (same_class l c) eqn:Hs.
  - apply IH. constructor; [by apply Hmerge | done].
  - constructor; [done | by apply IH].
Qed.

Lemma splits_pair_app_l v1 v2 v3 :
  v2 ≠ [] → splits_pair (v1 ++ v2) v3 = splits_pair v2 v3.
Proof.
  intros Hv2. unfold splits_pair. rewrite last_app.
  destruct (last v2) as [h|] eqn:Hl; [done|].
  by apply last_None in Hl.
Qed.

Lemma group_units p : class_only p → ∀ rest l,
  chain_ok (l :: rest) → Forall (λ s, value s ≠ []) (l :: rest) →
  sum_list (map units_of (List.filter p (group l rest)))
  = sum_list (map units_of (List.filter p (l :: rest))).
Proof.
  intros Hp. induction rest as [|c rest IH]; intros l Hchain Hne; [done|].
  destruct Hchain as [Hlc Hchain].
  apply Forall_cons in Hne as [Hl Hne].
  pose proof Hne as [Hc Hrest]%Forall_cons.
  cbn [group]. destruct (same_class l c) eqn:Hs.
  - pose proof Hs as [Ha Hr]%same_class_eq.
    rewrite IH.
    + cbn [List.filter].
      rewrite (Hp (merge l c) l), <-(Hp l c) by done.
      destruct (p l); [|done]. cbn [map sum_list]. unfold units_of at 1 3 4.
      simpl value. rewrite Array_from_app by auto. rewrite length_app.
      unfold id. lia.
    + destruct rest as [|d rest]; [done|]. destruct Hchain as [Hcd Hchain].
      split; [|done]. simpl value. rewrite splits_pair_app_l by done.
      intros Hmd. apply Hcd. unfold same_class in *. simpl in Hmd.
      by rewrite <-Ha, <-Hr.
    + constructor; [|done]. simpl. by destruct (value l).
  - cbn [List.filter] in *. destruct (p l); cbn [map sum_list]; by rewrite IH.
Qed.

(** ** Traces as span lists *)

Lemma class_only_is_added : class_only is_added.
Proof. intros s s' Ha _. unfold is_added. by rewrite Ha. Qed.

Lemma class_only_is_removed : class_only is_removed.
Proof. intros s s' _ Hr. unfold is_removed. by rewrite Hr. Qed.

Lemma class_only_is_unchanged : class_only is_unchanged.
Proof.
  intros s s' Ha Hr. unfold is_unchanged.
  by rewrite (class_only_is_added s s'), (class_only_is_removed s s').
Qed.

Lemma class_only_negb p : class_only p → class_only (λ s, negb (p s)).
Proof. intros Hp s s' Ha Hr. by rewrite (Hp s s'). Qed.

Lemma trace_not_removed es :
  map value (List.filter (λ s, negb (is_removed s)) (map to_span es)) = news es.
Proof. induction es as [|[] es IH]; simpl; by rewrite ?IH. Qed.

Lemma trace_not_added es :
  map value (List.filter (λ s, negb (is_added s)) (map to_span es)) = olds es.
Proof. induction es as [|[] es IH]; simpl; by rewrite ?IH. Qed.

Lemma trace_unchanged es :
  length (List.filter is_unchanged (map to_span es)) = length (keeps es).
Proof. induction es as [|[] es IH]; simpl; by rewrite ?IH. Qed.

Lemma trace_removed es :
  length (List.filter is_removed (map to_span es)) + length (keeps es)
  = length (olds es).
Proof. induction es as [|[] es IH]; simpl; lia. Qed.

Lemma trace_added es :
  length (List.filter is_added (map to_span es)) + length (keeps es)
  = length (news es).
Proof. induction es as [|[] es IH]; simpl; lia. Qed.

Lemma trace_well_tagged es : Forall well_tagged (map to_span es).
Proof.
  induction es as [|e es IH]; constructor; [|done].
  destruct e; unfold well_tagged; simpl; auto.
Qed.

Lemma trace_atomic es :
  Forall atomic (olds es) → Forall atomic (news es) →
  Forall (λ s, atomic (value s)) (map to_span es).
Proof.
  induction es as [|e es IH]; intros Ho Hn; [constructor|].
  destruct e; simpl in *;
    repeat match goal with
           | H : Forall _ (_ :: _) |- _ => apply Forall_cons in H as [? ?]
           end;
    constructor; auto.
Qed.

Lemma units_ok_tail u us : units_ok (u :: us) → units_ok us.
Proof. destruct us; [done|]. by intros [_ ?]. Qed.

Lemma trace_chain_ok es :
  units_ok (olds es) → units_ok (news es) → chain_ok (map to_span es).
Proof.
  induction es as [|e1 es IH]; intros Ho Hn; [done|].
  assert (chain_ok (map to_span es)) as Htl.
  { destruct e1; simpl in Ho, Hn; eauto using units_ok_tail. }
  destruct es as [|e2 es]; [done|].
  split; [|done].
  destruct e1, e2; simpl in *; try done; intros _; tauto.
Qed.

Lemma atomic_units_of s : atomic (value s) → units_of s = 1.
Proof. intros [_ Hu]. unfold units_of. by rewrite Hu. Qed.

Lemma sum_units_atomic spans :
  Forall (λ s, atomic (value s)) spans → sum_list (map units_of spans) = length spans.
Proof.
  induction 1 as [|s spans Hs _ IH]; [done|].
  cbn [map sum_list length]. rewrite IH, (atomic_units_of s Hs). done.
Qed.

(** The span list after coalescing holds as many code points of each class
    as the trace has steps of that class. *)
Lemma coalesce_units p es :
  class_only p →
  Forall atomic (olds es) → units_ok (olds es) →
  Forall atomic (news es) → units_ok (news es) →
  units_tagged p (coalesce (map to_span es))
  = length (List.filter p (map to_span es)).
Proof.
  intros Hp Hao Hoo Han Hon.
  pose proof (trace_atomic es Hao Han) as Hat.
  pose proof (trace_chain_ok es Hoo Hon) as Hch.
  unfold units_tagged.
  destruct (map to_span es) as [|first rest] eqn:Hes; [done|].
  cbn [coalesce]. rewrite group_units; [|done..|].
  - apply sum_units_atomic.
    apply Forall_forall. intros s Hs. apply list_elem_of_In, filter_In in Hs as [Hs _].
    apply list_elem_of_In in Hs. by eapply Forall_forall in Hat.
  - eapply Forall_impl; [exact Hat|]. by intros s [? _].
Qed.

Lemma coalesce_values p result :
  class_only p →
  concat (map value (List.filter p (coalesce result)))
  = concat (map value (List.filter p result)).
Proof. intros Hp. destruct result; [done|]. by apply group_values. Qed.

(** ** diffStrings *)

(** [diffStrings] returns: the spans are those of a trace of the two
    sequences of code points, coalesced, and the trace keeps as many elements
    as the table counts. *)
Lemma diffStrings_trace (oldStr newStr : list N) :
  ∃ es,
    diffStrings oldStr newStr = Some (coalesce (map to_span es))
    ∧ olds es = Array_from oldStr
    ∧ news es = Array_from newStr
    ∧ length (keeps es)
      = lcs_len (reverse (Array_from oldStr)) (reverse (Array_from newStr)).
Proof.
  destruct (backtrace_trace (Array_from oldStr) (Array_from newStr)
              (length (Array_from oldStr) + length (Array_from newStr))
              (length (Array_from oldStr)) (length (Array_from newStr)) [])
    as (es & Hrun & Ho & Hn & Hk); [done..|].
  exists es. rewrite !take_ge in * by done. split_and!; [|done..].
  unfold diffStrings. cbv zeta. unfold diff_table in Hrun. rewrite Hrun.
  rewrite app_nil_r. simpl.
  destruct (map to_span es) as [|first rest]; [done|].
  cbn [coalesce]. f_equal. exact (foldl_coalesce_step rest [] first).
Qed.

(** C1. The spans returned by [diffStrings old new] reconstruct both
    strings: the values of the spans that are not removed, joined in order,
    are [new]; the values of the spans that are not added are [old]. *)
Theorem diffStrings_reconstructs (oldStr newStr : list N) :
  ∃ spans,
    diffStrings oldStr newStr = Some spans
    ∧ concat (map value (List.filter (λ s, negb (is_removed s)) spans)) = newStr
    ∧ concat (map value (List.filter (λ s, negb (is_added s)) spans)) = oldStr.
Proof.
  destruct (diffStrings_trace oldStr newStr) as (es & Hrun & Ho & Hn & _).
  exists (coalesce (map to_span es)). split_and!; [done|..].
  - rewrite coalesce_values by apply class_only_negb, class_only_is_removed.
    by rewrite trace_not_removed, Hn, concat_Array_from.
  - rewrite coalesce_values by apply class_only_negb, class_only_is_added.
    by rewrite trace_not_added, Ho, concat_Array_from.
Qed.

(** C5. The edit script of [diffStrings old new] is minimal: counted in code
    points (the elements of [Array.from]), the unchanged spans hold as many
    as a longest common subsequence of the two sequences has, the removed
    spans hold the rest of [old] and the added spans the rest of [new]
    (the differences are written as sums, [nat] having no negative
    numbers). *)
Theorem diffStrings_minimal (oldStr newStr : list N) :
  ∃ spans k,
    diffStrings oldStr newStr = Some spans
    ∧ is_lcs_length (Array_from oldStr) (Array_from newStr) k
    ∧ units_tagged is_unchanged spans = k
    ∧ units_tagged is_removed spans + k = length (Array_from oldStr)
    ∧ units_tagged is_added spans + k = length (Array_from newStr).
Proof.
  destruct (diffStrings_trace oldStr newStr) as (es & Hrun & Ho & Hn & Hk).
  exists (coalesce (map to_span es)), (length (keeps es)).
  assert (∀ p, class_only p →
            units_tagged p (coalesce (map to_span es))
            = length (List.filter p (map to_span es))) as Hunits.
  { intros p Hp. apply coalesce_units; [done|..]; rewrite ?Ho, ?Hn;
      auto using Array_from_atomic, Array_from_units_ok. }
  split_and!.
  - done.
  - rewrite Hk. apply is_lcs_length_reverse, lcs_len_is_lcs_length.
  - rewrite Hunits by apply class_only_is_unchanged. apply trace_unchanged.
  - rewrite Hunits by apply class_only_is_removed.
    pose proof (trace_removed es) as Hr. rewrite Ho in Hr. lia.
  - rewrite Hunits by apply class_only_is_added.
    pose proof (trace_added es) as Ha. rewrite Hn in Ha. lia.
Qed.

(** C6. Every span of the result has one of the three classifications
    (unchanged, added, removed; never added and removed at once) and a value
    that is not empty, and no two consecutive spans have the same
    classification. *)
Theorem diffStrings_maximal_runs (oldStr newStr : list N) :
  ∃ spans,
    diffStrings oldStr newStr = Some spans
    ∧ Forall (λ s, well_tagged s ∧ value s ≠ []) spans
    ∧ distinct_neighbours spans.
Proof.
  destruct (diffStrings_trace oldStr newStr) as (es & Hrun & Ho & Hn & _).
  exists (coalesce (map to_span es)). split; [done|].
  assert (Forall (λ s, well_tagged s ∧ value s ≠ []) (map to_span es)) as Hall.
  { apply Forall_and. split; [apply trace_well_tagged|].
    eapply Forall_impl; [apply trace_atomic|].
    - rewrite Ho. apply Array_from_atomic.
    - rewrite Hn. apply Array_from_atomic.
    - by intros s [? _]. }
  destruct (map to_span es) as [|first rest]; [by split; [|intros []]|].
  split; [|apply group_distinct_neighbours].
  apply group_Forall; [|done].
  intros l c [Hl Hvl] _ _. split; [done|]. simpl. by destruct (value l).
Qed.

Lemma group_concat rest : ∀ l,
  concat (map value (group l rest)) = concat (map value (l :: rest)).
Proof.
  induction rest as [|c rest IH]; intros l; [done|].
  cbn [group]. destruct (same_class l c).
  - rewrite IH. simpl. by rewrite app_assoc.
  - simpl in *. by rewrite IH.
Qed.

Lemma coalesce_concat result :
  concat (map value (coalesce result)) = concat (map value result).
Proof. destruct result; [done | apply group_concat]. Qed.

Lemma coalesce_Forall_class (Q : span → Prop) result :
  (∀ s s', added s = added s' → removed s = removed s' → Q s → Q s') →
  Forall Q result → Forall Q (coalesce result).
Proof.
  intros HQ Hall. destruct result as [|first rest]; [done|].
  apply group_Forall; [|done]. intros l c Hl _ _. by apply (HQ l).
Qed.

Lemma trace_only_added es :
  olds es = [] →
  Forall (λ s, added s = Some true ∧ removed s = None) (map to_span es)
  ∧ map value (map to_span es) = news es.
Proof.
  induction es as [|[] es IH]; simpl; intros Ho; try done.
  destruct (IH Ho) as [Hall Hv]. split; [by constructor | by rewrite Hv].
Qed.

Lemma trace_only_removed es :
  news es = [] →
  Forall (λ s, added s = None ∧ removed s = Some true) (map to_span es)
  ∧ map value (map to_span es) = olds es.
Proof.
  induction es as [|[] es IH]; simpl; intros Hn; try done.
  destruct (IH Hn) as [Hall Hv]. split; [by constructor | by rewrite Hv].
Qed.

(** C7. Against the empty string: [diffStrings "" s] consists of added
    spans only and [diffStrings s ""] of removed spans only, and in both
    cases the values joined are [s]; [diffStrings "" ""] is the empty list. *)
Theorem diffStrings_empty_side (s : list N) :
  (∃ spans,
     diffStrings [] s = Some spans
     ∧ Forall (λ sp, added sp = Some true ∧ removed sp = None) spans
     ∧ concat (map value spans) = s)
  ∧ (∃ spans,
       diffStrings s [] = Some spans
       ∧ Forall (λ sp, added sp = None ∧ removed sp = Some true) spans
       ∧ concat (map value spans) = s)
  ∧ diffStrings [] [] = Some [].
Proof.
  split_and!; [| |done].
  - destruct (diffStrings_trace [] s) as (es & Hrun & Ho & Hn & _).
    destruct (trace_only_added es Ho) as [Hall Hv].
    exists (coalesce (map to_span es)). split_and!; [done|..].
    + apply coalesce_Forall_class; [|done]. by intros sp sp' <- <-.
    + by rewrite coalesce_concat, Hv, Hn, concat_Array_from.
  - destruct (diffStrings_trace s []) as (es & Hrun & Ho & Hn & _).
    destruct (trace_only_removed es Hn) as [Hall Hv].
    exists (coalesce (map to_span es)). split_and!; [done|..].
    + apply coalesce_Forall_class; [|done]. by intros sp sp' <- <-.
    + by rewrite coalesce_concat, Hv, Ho, concat_Array_from.
Qed.

(** ** compareAccountNumbers *)

Lemma endsWith_suffix (s search : list N) :
  endsWith s search = bool_decide (search `suffix_of` s).
Proof.
  unfold endsWith. destruct (Nat.leb_spec (length search) (length s)) as [Hle|Hlt].
  - apply bool_decide_ext. split.
    + intros <-. exists (take (length s - length search) s).
      by rewrite take_drop.
    + intros [k ->]. rewrite length_app.
      replace (length k + length search - length search) with (length k) by lia.
      by rewrite drop_app_length.
  - symmetry. apply bool_decide_eq_false_2. intros Hsuf%suffix_length. lia.
Qed.

Lemma is_alnum_ascii (c : N) : is_alnum c = true → (c < 128)%N.
Proof.
  unfold is_alnum, in_range. intros Hc.
  repeat match goal with
         | H : _ || _ = true |- _ => apply orb_true_iff in H as [H|H]
         | H : _ && _ = true |- _ => apply andb_true_iff in H as [_ H]
         end;
    apply N.leb_le in Hc; lia.
Qed.

Section AccountNumbers.
Variable toUpperCase : list N → list N.

(** On ASCII input [toUpperCase] maps the letters a-z to A-Z and leaves the
    other code units as they are. *)
Hypothesis toUpperCase_ascii :
  ∀ s, Forall (λ c, (c < 128)%N) s → toUpperCase s = map upper_ascii s.

Lemma toUpperCase_filter acc :
  toUpperCase (List.filter is_alnum acc) = normalized acc.
Proof using toUpperCase_ascii.
  apply toUpperCase_ascii, Forall_forall. intros c Hc.
  apply list_elem_of_In, filter_In in Hc as [_ Hc]. by apply is_alnum_ascii.
Qed.

Lemma compareAccountNumbers_normalized acc1 acc2 :
  compareAccountNumbers toUpperCase acc1 acc2 =
    if bool_decide (normalized acc1 = [] ∨ normalized acc2 = []) then false
    else if bool_decide (normalized acc1 = normalized acc2) then true
    else bool_decide (normalized acc1 `suffix_of` normalized acc2
                      ∨ normalized acc2 `suffix_of` normalized acc1).
Proof using toUpperCase_ascii.
  unfold compareAccountNumbers. rewrite !toUpperCase_filter.
  destruct acc1 as [|c1 acc1]; [done|].
  destruct acc2 as [|c2 acc2].
  { cbn [falsy orb]. rewrite bool_decide_eq_true_2; [done | by right]. }
  cbn [falsy orb]. cbv zeta.
  generalize (normalized (c1 :: acc1)) (normalized (c2 :: acc2)). intros n1 n2.
  destruct (Nat.eqb_spec (length n1) 0) as [H1|H1].
  { apply nil_length_inv in H1. rewrite (bool_decide_eq_true_2 (_ ∨ _)); [done | by left]. }
  destruct (Nat.eqb_spec (length n2) 0) as [H2|H2].
  { apply nil_length_inv in H2. rewrite (bool_decide_eq_true_2 (_ ∨ _)); [done | by right]. }
  cbn [orb].
  rewrite (bool_decide_eq_false_2 (_ ∨ _)) by (by intros [->| ->]).
  case_bool_decide as Heq; [done|].
  destruct (Nat.ltb_spec (length n1) (length n2)) as [Hlt|Hge];
    rewrite endsWith_suffix; apply bool_decide_ext.
  - split; [tauto|]. intros [|Hsuf%suffix_length]; [done | lia].
  - split; [tauto|]. intros [Hsuf|]; [|done].
    pose proof (suffix_length _ _ Hsuf) as Hlen.
    destruct Heq. apply (suffix_length_eq _ _ Hsuf). lia.
Qed.

(** C2. [compareAccountNumbers] on the normalised values (what is not an
    ASCII letter or digit dropped, the rest upper-cased): false when one of
    them is empty, true when they are equal, and otherwise true exactly when
    the longer one ends with the shorter one. In particular it is false
    whenever the first argument is the empty string, and true for
    ["001234567"] and ["1234567"]. *)
Theorem compareAccountNumbers_rule (acc1 acc2 : list N) :
  (compareAccountNumbers toUpperCase acc1 acc2 =
     if bool_decide (normalized acc1 = [] ∨ normalized acc2 = []) then false
     else if bool_decide (normalized acc1 = normalized acc2) then true
     else bool_decide (normalized acc1 `suffix_of` normalized acc2
                       ∨ normalized acc2 `suffix_of` normalized acc1))
  ∧ compareAccountNumbers toUpperCase [] acc2 = false
  ∧ compareAccountNumbers toUpperCase (str "001234567") (str "1234567") = true.
Proof using toUpperCase_ascii.
  split_and!.
  - apply compareAccountNumbers_normalized.
  - done.
  - rewrite compareAccountNumbers_normalized. vm_compute. reflexivity.
Qed.

(** C10. [compareAccountNumbers] does not depend on the order of its
    arguments. *)
Theorem compareAccountNumbers_sym (a b : list N) :
  compareAccountNumbers toUpperCase a b = compareAccountNumbers toUpperCase b a.
Proof.
  unfold compareAccountNumbers. rewrite (orb_comm (falsy a)).
  destruct (falsy b || falsy a); [done|]. cbv zeta.
  set (n1 := toUpperCase (List.filter is_alnum a)).
  set (n2 := toUpperCase (List.filter is_alnum b)).
  rewrite (orb_comm (length n1 =? 0)).
  destruct ((length n2 =? 0) || (length n1 =? 0)); [done|].
  rewrite (bool_decide_ext (n1 = n2) (n2 = n1)) by done.
  case_bool_decide as Heq; [done|].
  destruct (Nat.ltb_spec (length n1) (length n2)) as [Hlt|Hge],
           (Nat.ltb_spec (length n2) (length n1)) as [Hlt'|Hge'];
    try done; try lia.
  rewrite !endsWith_suffix.
  assert (length n1 = length n2) as Hlen by lia.
  rewrite !bool_decide_eq_false_2; [done|..];
    intros Hsuf; apply Heq;
    first [by apply (suffix_length_eq _ _ Hsuf)
          | by symmetry; apply (suffix_length_eq _ _ Hsuf)].
Qed.
End AccountNumbers.

Lemma compareAccountNumbers_rule_witness :
  (∀ s, Forall (λ c, (c < 128)%N) s → map upper_ascii s = map upper_ascii s)
  ∧ compareAccountNumbers (map upper_ascii) (str "SA12 0001") (str "sa120001") = true.
Proof.
  split; [done|].
  destruct (compareAccountNumbers_rule (map upper_ascii) (λ s _, eq_refl)
              (str "SA12 0001") (str "sa120001")) as [Hrule _].
  rewrite Hrule. vm_compute. reflexivity.
Defined.

(** ** The per-field rule *)

(** The literals of the call sites are the correctly rounded quotients. *)
Lemma tolerance_0_7_rounded :
  SFdiv prec emax (of_nat 7) (of_nat 10) = tolerance_0_7.
Proof. vm_compute. reflexivity. Qed.

Lemma tolerance_0_8_rounded :
  SFdiv prec emax (of_nat 8) (of_nat 10) = tolerance_0_8.
Proof. vm_compute. reflexivity. Qed.

Lemma foldl_insert_lookup {V} (f : string → V) (keys : list string) :
  ∀ (m : gmap string V) key,
    foldl (λ m k, <[k := f k]> m) m keys !! key
    = if decide (key ∈ keys) then Some (f key) else m !! key.
Proof.
  induction keys as [|k keys IH]; intros m key; simpl.
  - done.
  - rewrite IH. destruct (decide (key ∈ keys)) as [Hin|Hnin].
    + rewrite decide_True; [done | by right].
    + destruct (decide (key = k)) as [->|Hne].
      * rewrite lookup_insert_eq, decide_True; [done | by left].
      * rewrite lookup_insert_ne by done.
        rewrite decide_False; [done|]. by intros [?|?]%elem_of_cons.
Qed.

Section Fields.
Variables toUpperCase toLowerCase : list N → list N.

(** The comparison has an entry for exactly the keys of the two records,
    and the entry is the one the loop body computes for the key. *)
Lemma buildComparison_lookup (data1 data2 : gmap string (list N)) key :
  buildComparison toUpperCase toLowerCase data1 data2 !! key
  = if decide (key ∈ dom data1 ∪ dom data2)
    then Some (compareField toUpperCase toLowerCase data1 data2 key)
    else None.
Proof.
  unfold buildComparison.
  rewrite (foldl_insert_lookup (compareField toUpperCase toLowerCase data1 data2)).
  rewrite lookup_empty.
  destruct (decide (key ∈ elements (dom data1 ∪ dom data2))) as [Hin|Hnin].
  - rewrite decide_True; [done | by apply elem_of_elements].
  - rewrite decide_False; [done | by rewrite <-elem_of_elements].
Qed.

(** C4. The match flag of a field in the comparison: [fuzzyMatch] with
    tolerance 0.7 for [beneficiaryName] and [bankName], [fuzzyMatch] with
    tolerance 0.8 for [goodsDescription], [compareAccountNumbers] for
    [accountNumber], and for every other field equality of the two values
    after lower-casing them and deleting white space, dots and hyphens. *)
Theorem comparison_match_rule (data1 data2 : gmap string (list N))
    (key : string) (entry : ComparisonEntry) :
  buildComparison toUpperCase toLowerCase data1 data2 !! key = Some entry →
  let val1 := default [] (data1 !! key) in
  let val2 := default [] (data2 !! key) in
  value1 entry = val1 ∧ value2 entry = val2 ∧
  isMatch entry =
    if decide (key = "beneficiaryName"%string ∨ key = "bankName"%string)
    then fuzzyMatch val1 val2 tolerance_0_7
    else if decide (key = "goodsDescription"%string)
    then fuzzyMatch val1 val2 tolerance_0_8
    else if decide (key = "accountNumber"%string)
    then compareAccountNumbers toUpperCase val1 val2
    else bool_decide
           (List.filter (λ c, negb (is_separator c)) (toLowerCase val1)
            = List.filter (λ c, negb (is_separator c)) (toLowerCase val2)).
Proof.
  rewrite buildComparison_lookup. case_decide as Hdom; [|done].
  intros [= <-]. cbv zeta. split_and!; [done..|].
  unfold compareField. cbn [isMatch].
  repeat case_bool_decide; repeat case_decide; try done; tauto.
Qed.
End Fields.

Lemma comparison_match_rule_witness :
  buildComparison (map upper_ascii) id
    {[ "city"%string := str "Al-Riyadh"; "bankName"%string := str "ANB" ]}
    {[ "city"%string := str "al riyadh" ]} !! "bankName"%string
  = Some (Entry (str "ANB") [] false)
  ∧ isMatch (Entry (str "ANB") [] false)
    = fuzzyMatch (str "ANB") [] tolerance_0_7.
Proof.
  assert (buildComparison (map upper_ascii) id
            {[ "city"%string := str "Al-Riyadh"; "bankName"%string := str "ANB" ]}
            {[ "city"%string := str "al riyadh" ]} !! "bankName"%string
          = Some (Entry (str "ANB") [] false)) as Hentry.
  { vm_compute. reflexivity. }
  split; [exact Hentry|].
  destruct (comparison_match_rule (map upper_ascii) id _ _ _ _ Hentry)
    as (_ & _ & Hmatch).
  exact Hmatch.
Defined.

(** * Further properties of the code *)

(** ** The distance *)

Section Distance.
Context {A : Type} `{EqDecision A}.
Implicit Types a b c : list A.

Lemma lev_zero a : ∀ b, lev a b = 0 → a = b.
Proof.
  induction a as [|x a IHa]; intros b Hz.
  - simpl in Hz. by apply nil_length_inv in Hz.
  - destruct b as [|y b]; [done|].
    rewrite lev_cons_cons in Hz. case_decide as Hxy; [|lia].
    subst y. f_equal. apply IHa. lia.
Qed.

Lemma lev_upper a : ∀ b, lev a b ≤ Nat.max (length a) (length b).
Proof.
  induction a as [|x a IHa]; intros b; [simpl; lia|].
  destruct b as [|y b]; [simpl; lia|].
  rewrite lev_cons_cons. specialize (IHa b). simpl length. case_decide; lia.
Qed.

Lemma lev_lower a : ∀ b,
  length a - length b ≤ lev a b ∧ length b - length a ≤ lev a b.
Proof.
  induction a as [|x a IHa]; intros b; [simpl; lia|].
  induction b as [|y b IHb]; [simpl; lia|].
  rewrite lev_cons_cons. simpl length.
  pose proof (IHa b). pose proof (IHa (y :: b)) as Hd. simpl length in Hd.
  simpl length in IHb. case_decide; lia.
Qed.

(** Edit scripts compose: going through [b] costs at most the sum. *)
Lemma edits_trans a b n :
  edits a b n → ∀ c m, edits b c m → ∃ k, k ≤ n + m ∧ edits a c k.
Proof.
  induction 1 as [|x a b n _ IH|y a b n _ IH|x a b n _ IH|x y a b n _ IH];
    intros c m H2.
  - exists m. by split.
  - destruct (IH c m H2) as (k & Hk & He).
    exists (S k). split; [lia | by constructor].
  - remember (y :: b) as yb eqn:Hyb.
    induction H2 as [|y' b' c m H2 _|z b' c m H2 IH2|y' b' c m H2 _|y' z b' c m H2 _];
      try done.
    + injection Hyb as -> ->. destruct (IH c m H2) as (k & Hk & He).
      exists k. split; [lia | done].
    + destruct (IH2 Hyb) as (k & Hk & He).
      exists (S k). split; [lia | by constructor].
    + injection Hyb as -> ->. destruct (IH c m H2) as (k & Hk & He).
      exists (S k). split; [lia | by constructor].
    + injection Hyb as -> ->. destruct (IH c m H2) as (k & Hk & He).
      exists (S k). split; [lia | by constructor].
  - remember (x :: b) as xb eqn:Hxb.
    induction H2 as [|y' b' c m H2 _|z b' c m H2 IH2|y' b' c m H2 _|y' z b' c m H2 _];
      try done.
    + injection Hxb as -> ->. destruct (IH c m H2) as (k & Hk & He).
      exists (S k). split; [lia | by constructor].
    + destruct (IH2 Hxb) as (k & Hk & He).
      exists (S k). split; [lia | by constructor].
    + injection Hxb as -> ->. destruct (IH c m H2) as (k & Hk & He).
      exists k. split; [lia | by constructor].
    + injection Hxb as -> ->. destruct (IH c m H2) as (k & Hk & He).
      exists (S k). split; [lia | by constructor].
  - remember (y :: b) as yb eqn:Hyb.
    induction H2 as [|y' b' c m H2 _|z b' c m H2 IH2|y' b' c m H2 _|y' z b' c m H2 _];
      try done.
    + injection Hyb as -> ->. destruct (IH c m H2) as (k & Hk & He).
      exists (S k). split; [lia | by constructor].
    + destruct (IH2 Hyb) as (k & Hk & He).
      exists (S k). split; [lia | by constructor].
    + injection Hyb as -> ->. destruct (IH c m H2) as (k & Hk & He).
      exists (S k). split; [lia | by apply edits_substitute].
    + injection Hyb as -> ->. destruct (IH c m H2) as (k & Hk & He).
      exists (S k). split; [lia | by apply edits_substitute].
Qed.

Lemma lev_triangle a b c : lev a c ≤ lev a b + lev b c.
Proof.
  destruct (edits_trans a b _ (lev_edits a b) c _ (lev_edits b c)) as (k & Hk & He).
  pose proof (lev_least _ _ _ He). lia.
Qed.
End Distance.

(** X1. The distance is 0 exactly for equal strings. *)
Theorem calculateLevenshteinDistance_zero (a b : list N) :
  calculateLevenshteinDistance a b = 0 ↔ a = b.
Proof.
  rewrite calculateLevenshteinDistance_eq_lev. split.
  - apply lev_zero.
  - intros ->. apply lev_refl.
Qed.

(** X2. The distance lies between the difference of the two lengths and the
    greater length, so that [distance / maxLength] is between 0 and 1. *)
Theorem calculateLevenshteinDistance_bounds (a b : list N) :
  length a - length b ≤ calculateLevenshteinDistance a b
  ∧ length b - length a ≤ calculateLevenshteinDistance a b
  ∧ calculateLevenshteinDistance a b ≤ Nat.max (length a) (length b).
Proof.
  rewrite calculateLevenshteinDistance_eq_lev.
  pose proof (lev_lower a b). pose proof (lev_upper a b). tauto.
Qed.

(** X3. The distance satisfies the triangle inequality. *)
Theorem calculateLevenshteinDistance_triangle (a b c : list N) :
  calculateLevenshteinDistance a c
  ≤ calculateLevenshteinDistance a b + calculateLevenshteinDistance b c.
Proof. rewrite !calculateLevenshteinDistance_eq_lev. apply lev_triangle. Qed.

(** X4. [fuzzyMatch] does not depend on the order of the two strings. *)
Theorem fuzzyMatch_sym (str1 str2 : list N) (tolerance : spec_float) :
  fuzzyMatch str1 str2 tolerance = fuzzyMatch str2 str1 tolerance.
Proof.
  unfold fuzzyMatch.
  rewrite (andb_comm (falsy str1)), (orb_comm (falsy str1)).
  rewrite (Nat.max_comm (length str1)).
  by rewrite !calculateLevenshteinDistance_eq_lev, (lev_sym str1).
Qed.

(** ** The tolerance *)

(** [<=] on doubles is transitive. *)
Lemma SFleb_trans (x y z : spec_float) :
  SFleb x y = true → SFleb y z = true → SFleb x z = true.
Proof.
  unfold SFleb, SFcompare.
  destruct x as [sx|sx| |sx mx ex], y as [sy|sy| |sy my ey], z as [sz|sz| |sz mz ez];
    repeat match goal with s : bool |- _ => destruct s end;
    try (intros; reflexivity); try (intros; discriminate).
  all: repeat match goal with
              | |- context [PosDef.Pos.compare_cont Eq ?a ?b] =>
                  change (PosDef.Pos.compare_cont Eq a b) with (Pos.compare a b)
              end.
  all: destruct (Z.compare_spec ex ey), (Z.compare_spec ey ez), (Z.compare_spec ex ez);
       try (intros; reflexivity); try (intros; discriminate); try lia.
  all: destruct (Pos.compare_spec mx my), (Pos.compare_spec my mz),
                (Pos.compare_spec mx mz);
       simpl; try (intros; reflexivity); try (intros; discriminate); try lia.
Qed.

(** X5. A pair of strings that matches under a tolerance matches under
    every smaller tolerance. *)
Theorem fuzzyMatch_tolerance_mono (str1 str2 : list N) (t1 t2 : spec_float) :
  SFleb t1 t2 = true →
  fuzzyMatch str1 str2 t2 = true → fuzzyMatch str1 str2 t1 = true.
Proof.
  intros Ht. unfold fuzzyMatch.
  destruct (falsy str1 && falsy str2); [done|].
  destruct (falsy str1 || falsy str2); [done|]. cbv zeta.
  destruct (Nat.max (length str1) (length str2) =? 0); [done|].
  by apply SFleb_trans.
Qed.

Lemma fuzzyMatch_tolerance_mono_witness :
  SFleb tolerance_0_7 tolerance_0_8 = true
  ∧ fuzzyMatch (str "SMITH") (str "SMYTH") tolerance_0_8 = true
  ∧ fuzzyMatch (str "SMITH") (str "SMYTH") tolerance_0_7 = true.
Proof.
  assert (SFleb tolerance_0_7 tolerance_0_8 = true) as Ht by (vm_compute; reflexivity).
  assert (fuzzyMatch (str "SMITH") (str "SMYTH") tolerance_0_8 = true) as Hm
    by (vm_compute; reflexivity).
  split_and!; [done..|].
  exact (fuzzyMatch_tolerance_mono _ _ _ _ Ht Hm).
Defined.

(** ** More on diffStrings *)

Lemma diffStrings_of_backtrace (oldStr newStr : list N) (result : list span) :
  backtrace (length (Array_from oldStr) + length (Array_from newStr))
    (Array_from oldStr) (Array_from newStr)
    (diff_table (Array_from oldStr) (Array_from newStr))
    (length (Array_from oldStr)) (length (Array_from newStr)) [] = Some result →
  diffStrings oldStr newStr = Some (coalesce result).
Proof.
  intros Hrun. unfold diffStrings. cbv zeta. unfold diff_table in Hrun.
  rewrite Hrun. simpl. destruct result as [|first rest]; [done|].
  cbn [coalesce]. f_equal. exact (foldl_coalesce_step rest [] first).
Qed.

(** Spans of one class are coalesced into one span. *)
Lemma group_same rest : ∀ l,
  Forall (λ c, same_class l c = true) rest →
  group l rest = [Span (value l ++ concat (map value rest)) (added l) (removed l)].
Proof.
  induction rest as [|c rest IH]; intros l Hall.
  - simpl. rewrite app_nil_r. by destruct l.
  - apply Forall_cons in Hall as [Hc Hall]. cbn [group]. rewrite Hc.
    rewrite IH.
    + simpl. by rewrite app_assoc.
    + eapply Forall_impl; [exact Hall|]. intros d Hd.
      apply same_class_eq in Hd as [Ha Hr]. unfold same_class. simpl.
      rewrite Ha, Hr. by rewrite !bool_decide_eq_true_2.
Qed.

Lemma coalesce_same (tagged : list N → span) (us : list (list N)) a r :
  (∀ u, tagged u = Span u a r) →
  coalesce (map tagged us)
  = match us with [] => [] | _ => [Span (concat us) a r] end.
Proof.
  intros Htag. destruct us as [|u us]; [done|].
  cbn [map coalesce]. rewrite group_same.
  - rewrite !Htag. simpl. f_equal. f_equal. f_equal.
    induction us as [|v us IH]; [done|]. simpl. by rewrite Htag, IH.
  - apply Forall_forall. intros c Hc.
    apply list_elem_of_fmap in Hc as (v & -> & _).
    rewrite !Htag. unfold same_class. simpl. by rewrite !bool_decide_eq_true_2.
Qed.

Lemma Array_from_nil_inv s : Array_from s = [] → s = [].
Proof. intros Hs. by rewrite <-(concat_Array_from s), Hs. Qed.

(** Identical sequences are walked along the diagonal, whatever the table. *)
Lemma backtrace_diagonal (us : list (list N)) m : ∀ i fuel result,
  i ≤ length us → i + i ≤ fuel →
  backtrace fuel us us m i i result
  = Some (map (λ u, Span u None None) (take i us) ++ result).
Proof.
  induction i as [|i IH]; intros fuel result Hi Hfuel.
  - by destruct fuel.
  - destruct fuel as [|fuel]; [lia|].
    destruct (lookup_lt_is_Some_2 us i) as [x Hx]; [lia|].
    rewrite (backtrace_keep us us fuel m i i result x Hx Hx).
    rewrite IH by lia. rewrite (take_S_r _ _ _ Hx), map_app, <-app_assoc. done.
Qed.

(** X6. The diff of a string with itself is the string as one unchanged
    span (no span at all for the empty string). *)
Theorem diffStrings_same (s : list N) :
  diffStrings s s = Some (match s with [] => [] | _ => [Span s None None] end).
Proof.
  rewrite (diffStrings_of_backtrace s s
             (map (λ u, Span u None None) (Array_from s))).
  - rewrite (coalesce_same _ _ None None) by done.
    rewrite concat_Array_from.
    destruct (Array_from s) eqn:Hs; [by apply Array_from_nil_inv in Hs as ->|].
    by destruct s.
  - rewrite backtrace_diagonal by lia.
    by rewrite take_ge, app_nil_r by lia.
Qed.

Lemma trace_all_added es :
  olds es = [] → map to_span es = map (λ u, Span u (Some true) None) (news es).
Proof. induction es as [|[] es IH]; simpl; intros Ho; try done. by rewrite IH. Qed.

Lemma trace_all_removed es :
  news es = [] → map to_span es = map (λ u, Span u None (Some true)) (olds es).
Proof. induction es as [|[] es IH]; simpl; intros Hn; try done. by rewrite IH. Qed.

(** X7. Against the empty string the whole of a non-empty string is one
    span: added when the old string is empty, removed when the new one is. *)
Theorem diffStrings_empty_exact (s : list N) :
  diffStrings [] s
    = Some (match s with [] => [] | _ => [Span s (Some true) None] end)
  ∧ diffStrings s []
    = Some (match s with [] => [] | _ => [Span s None (Some true)] end).
Proof.
  split.
  - destruct (diffStrings_trace [] s) as (es & Hrun & Ho & Hn & _).
    rewrite Hrun, (trace_all_added es Ho), Hn.
    rewrite (coalesce_same _ _ (Some true) None) by done.
    rewrite concat_Array_from.
    destruct (Array_from s) eqn:Hs; [by apply Array_from_nil_inv in Hs as ->|].
    by destruct s.
  - destruct (diffStrings_trace s []) as (es & Hrun & Ho & Hn & _).
    rewrite Hrun, (trace_all_removed es Hn), Ho.
    rewrite (coalesce_same _ _ None (Some true)) by done.
    rewrite concat_Array_from.
    destruct (Array_from s) eqn:Hs; [by apply Array_from_nil_inv in Hs as ->|].
    by destruct s.
Qed.

(** ** Removals come before additions *)

Lemma lcs_len_cons_l_le {A} `{EqDecision A} (x : A) (a b : list A) :
  lcs_len a b ≤ lcs_len (x :: a) b.
Proof.
  destruct (lcs_len_witness a b) as (c & Ha & Hb & <-).
  apply lcs_len_upper; [by constructor | done].
Qed.

Lemma neighbours_free_snoc R l s :
  neighbours_free R l →
  (∀ s', last l = Some s' → R s' s = false) →
  neighbours_free R (l ++ [s]).
Proof.
  induction l as [|s1 [|s2 l] IH]; intros Hfree Hlast; [done|..].
  - simpl. split; [by apply Hlast | done].
  - destruct Hfree as [H12 Hfree]. split; [done|].
    apply IH; [done|]. intros s' Hs'. by apply Hlast.
Qed.

Lemma neighbours_free_lookup R l :
  neighbours_free R l →
  ∀ k s1 s2, l !! k = Some s1 → l !! S k = Some s2 → R s1 s2 = false.
Proof.
  induction l as [|s [|s' l] IH]; intros Hfree k s1 s2 H1 H2; [done|..].
  - by destruct k.
  - destruct Hfree as [Hss Hfree]. destruct k as [|k].
    + simpl in H1, H2. by injection H1 as <-; injection H2 as <-.
    + by apply (IH Hfree k).
Qed.

Lemma group_neighbours_free R :
  (∀ s1 s1' s2 s2', added s1 = added s1' → removed s1 = removed s1' →
     added s2 = added s2' → removed s2 = removed s2' → R s1 s2 = R s1' s2') →
  ∀ rest l, neighbours_free R (l :: rest) → neighbours_free R (group l rest).
Proof.
  intros HR. induction rest as [|c rest IH]; intros l Hfree; [done|].
  destruct Hfree as [Hlc Hfree].
  cbn [group]. destruct (same_class l c) eqn:Hs.
  - apply same_class_eq in Hs as [Ha Hr]. apply IH.
    destruct rest as [|d rest]; [done|]. destruct Hfree as [Hcd Hfree].
    split; [|done]. by rewrite (HR (merge l c) c d d).
  - destruct (group_head c rest) as (c' & tl & Hg & Ha & Hr).
    pose proof (IH c Hfree) as Htl. rewrite Hg in Htl |- *.
    split; [|done]. by rewrite (HR l l c' c).
Qed.

Section DiffOrder.
Variables oldChars newChars : list (list N).

Let lcs_spec (i j : nat) : nat :=
  lcs_len (reverse (take i oldChars)) (reverse (take j newChars)).

Lemma lcs_spec_mono_row i j :
  i < length oldChars → lcs_spec i j ≤ lcs_spec (S i) j.
Proof.
  intros Hi. destruct (lookup_lt_is_Some_2 oldChars i) as [x Hx]; [done|].
  unfold lcs_spec. rewrite (reverse_take_S _ _ _ Hx). apply lcs_len_cons_l_le.
Qed.

(** The trace, with what the claim on the order needs: no added step is
    directly followed by a removed one, and when the trace of [(i, j)] ends
    with an added step, the table has the same value at [(i, j - 1)]. *)
Lemma backtrace_order fuel : ∀ i j result,
  i ≤ length oldChars → j ≤ length newChars → i + j ≤ fuel →
  ∃ trace,
    backtrace fuel oldChars newChars (diff_table oldChars newChars) i j result
      = Some (trace ++ result)
    ∧ neighbours_free added_then_removed trace
    ∧ ∀ s, last trace = Some s → is_added s = true →
        ∃ j0, j = S j0 ∧ lcs_spec i (S j0) = lcs_spec i j0.
Proof using Type*.
  induction fuel as [|fuel IH]; intros i j result Hi Hj Hfuel.
  { assert (i = 0) as -> by lia. assert (j = 0) as -> by lia. by exists []. }
  assert (∀ (trace : list span) e, trace ++ e :: result = (trace ++ [e]) ++ result)
    as Hsnoc.
  { intros trace e. by rewrite <-app_assoc. }
  destruct i as [|i], j as [|j].
  - by exists [].
  - destruct (lookup_lt_is_Some_2 newChars j) as [y Hy]; [lia|].
    destruct (IH 0 j (to_span (Add y) :: result)) as (trace & Hrun & Hfree & Hlast);
      [lia..|].
    exists (trace ++ [to_span (Add y)]). split_and!.
    + rewrite (backtrace_add _ _ _ _ _ _ _ y) by auto. by rewrite Hrun, Hsnoc.
    + apply neighbours_free_snoc; [done|]. intros s' _.
      unfold added_then_removed. by rewrite andb_false_r.
    + intros s _ _. exists j. split; [done|].
      unfold lcs_spec. by rewrite take_0, reverse_nil.
  - destruct (lookup_lt_is_Some_2 oldChars i) as [x Hx]; [lia|].
    destruct (IH i 0 (to_span (Del x) :: result)) as (trace & Hrun & Hfree & Hlast);
      [lia..|].
    exists (trace ++ [to_span (Del x)]). split_and!.
    + rewrite (backtrace_del _ _ _ _ _ _ _ x) by auto. by rewrite Hrun, Hsnoc.
    + apply neighbours_free_snoc; [done|]. intros s' Hs'.
      unfold added_then_removed. destruct (is_added s') eqn:Hadd; [|done].
      by destruct (Hlast s' Hs' Hadd) as (j0 & ? & _).
    + intros s Hs. rewrite last_snoc in Hs. by injection Hs as <-.
  - destruct (lookup_lt_is_Some_2 oldChars i) as [x Hx]; [lia|].
    destruct (lookup_lt_is_Some_2 newChars j) as [y Hy]; [lia|].
    assert (lcs_spec (S i) (S j)
            = if decide (x = y) then lcs_spec i j + 1
              else Nat.max (lcs_spec i (S j)) (lcs_spec (S i) j)) as Hspec
      by exact (lcs_spec_S oldChars newChars i j x y Hx Hy).
    destruct (decide (x = y)) as [->|Hne].
    + destruct (IH i j (to_span (Keep y) :: result))
        as (trace & Hrun & Hfree & Hlast); [lia..|].
      exists (trace ++ [to_span (Keep y)]). split_and!.
      * rewrite (backtrace_keep _ _ _ _ _ _ _ y) by done. by rewrite Hrun, Hsnoc.
      * apply neighbours_free_snoc; [done|]. intros s' _.
        unfold added_then_removed. by rewrite andb_false_r.
      * intros s Hs. rewrite last_snoc in Hs. by injection Hs as <-.
    + destruct (Nat.le_gt_cases (lcs_spec i (S j)) (lcs_spec (S i) j)) as [Hle|Hlt].
      * destruct (IH (S i) j (to_span (Add y) :: result))
          as (trace & Hrun & Hfree & Hlast); [lia..|].
        exists (trace ++ [to_span (Add y)]). split_and!.
        -- rewrite (backtrace_add _ _ _ _ _ _ _ y); [by rewrite Hrun, Hsnoc | done |].
           right. replace (S i - 1) with i by lia.
           rewrite !diff_table_spec by lia. split; [congruence | done].
        -- apply neighbours_free_snoc; [done|]. intros s' _.
           unfold added_then_removed. by rewrite andb_false_r.
        -- intros s _ _. exists j. split; [done|]. rewrite Hspec. lia.
      * destruct (IH i (S j) (to_span (Del x) :: result))
          as (trace & Hrun & Hfree & Hlast); [lia..|].
        exists (trace ++ [to_span (Del x)]). split_and!.
        -- rewrite (backtrace_del _ _ _ _ _ _ _ x); [by rewrite Hrun, Hsnoc | done |].
           right. replace (S j - 1) with j by lia.
           rewrite !diff_table_spec by lia. split; [congruence | done].
        -- apply neighbours_free_snoc; [done|]. intros s' Hs'.
           unfold added_then_removed. destruct (is_added s') eqn:Hadd; [|done].
           destruct (Hlast s' Hs' Hadd) as (j0 & [= <-] & Heq).
           pose proof (lcs_spec_mono_row i j ltac:(lia)). lia.
        -- intros s Hs. rewrite last_snoc in Hs. by injection Hs as <-.
Qed.
End DiffOrder.

(** X8. In the result of [diffStrings] no added span is directly followed
    by a removed span: where text was replaced, what was removed comes
    first. *)
Theorem diffStrings_removed_first (oldStr newStr : list N) :
  ∃ spans,
    diffStrings oldStr newStr = Some spans ∧ removed_before_added spans.
Proof.
  destruct (backtrace_order (Array_from oldStr) (Array_from newStr)
              (length (Array_from oldStr) + length (Array_from newStr))
              (length (Array_from oldStr)) (length (Array_from newStr)) [])
    as (trace & Hrun & Hfree & _); [done..|].
  rewrite app_nil_r in Hrun.
  exists (coalesce trace). split; [by apply diffStrings_of_backtrace|].
  assert (neighbours_free added_then_removed (coalesce trace)) as Hco.
  { destruct trace as [|first rest]; [done|]. apply group_neighbours_free; [|done].
    intros s1 s1' s2 s2' Ha1 _ _ Hr2. unfold added_then_removed, is_added, is_removed.
    by rewrite Ha1, Hr2. }
  intros k s1 s2 H1 H2 [Ha Hr].
  pose proof (neighbours_free_lookup _ _ Hco k s1 s2 H1 H2) as Hfalse.
  unfold added_then_removed in Hfalse. by rewrite Ha, Hr in Hfalse.
Qed.

(** ** More on compareAccountNumbers *)

Lemma normalized_app (a b : list N) : normalized (a ++ b) = normalized a ++ normalized b.
Proof. unfold normalized. by rewrite List.filter_app, map_app. Qed.

Local Ltac solve_ranges :=
  unfold is_alnum, in_range in *;
  repeat match goal with
         | H : _ && _ = true |- _ => apply andb_true_iff in H as [?%N.leb_le ?%N.leb_le]
         | H : _ && _ = false |- _ =>
             apply andb_false_iff in H as [?%N.leb_gt|?%N.leb_gt]
         | |- context [(?a <=? ?b)%N] => destruct (N.leb_spec a b)
         end; simpl; try reflexivity; lia.

Lemma is_alnum_upper_ascii (c : N) : is_alnum (upper_ascii c) = is_alnum c.
Proof.
  unfold upper_ascii. destruct (in_range 97 122 c) eqn:Hc; [|done]. solve_ranges.
Qed.

Lemma upper_ascii_idemp (c : N) : upper_ascii (upper_ascii c) = upper_ascii c.
Proof.
  unfold upper_ascii at 2. destruct (in_range 97 122 c) eqn:Hc.
  - unfold upper_ascii. solve_ranges.
  - unfold upper_ascii. by rewrite Hc.
Qed.

Lemma normalized_idemp (acc : list N) : normalized (normalized acc) = normalized acc.
Proof.
  unfold normalized. induction acc as [|c acc IH]; [done|].
  simpl. destruct (is_alnum c) eqn:Hc; [|done].
  simpl. rewrite is_alnum_upper_ascii, Hc. simpl.
  by rewrite upper_ascii_idemp, IH.
Qed.

Lemma normalized_nil_iff (acc : list N) :
  normalized acc = [] ↔ Forall (λ c, is_alnum c = false) acc.
Proof.
  unfold normalized. induction acc as [|c acc IH]; [by split|].
  simpl. destruct (is_alnum c) eqn:Hc.
  - split; [done|]. intros [Hf _]%Forall_cons. congruence.
  - rewrite IH. split; [by constructor | by intros [_ ?]%Forall_cons].
Qed.

Section AccountNumbersMore.
Variable toUpperCase : list N → list N.
Hypothesis toUpperCase_ascii :
  ∀ s, Forall (λ c, (c < 128)%N) s → toUpperCase s = map upper_ascii s.

(** X9. An account number matches itself with anything put in front (a
    country code, a bank code, leading zeros), provided it has a letter or a
    digit. *)
Theorem compareAccountNumbers_prefixed (front acc : list N) :
  Exists (λ c, is_alnum c = true) acc →
  compareAccountNumbers toUpperCase (front ++ acc) acc = true.
Proof using toUpperCase_ascii.
  intros Hacc.
  rewrite (compareAccountNumbers_normalized toUpperCase toUpperCase_ascii).
  rewrite normalized_app.
  assert (normalized acc ≠ []) as Hne.
  { rewrite normalized_nil_iff. intros Hall.
    apply Exists_exists in Hacc as (c & Hc & Htrue).
    eapply Forall_forall in Hall; [|exact Hc]. congruence. }
  rewrite bool_decide_eq_false_2.
  - case_bool_decide; [done|]. apply bool_decide_eq_true_2. right.
    by apply suffix_app_r.
  - intros [Hnil|Hnil]; [|done]. by apply app_eq_nil in Hnil as [_ ?].
Qed.

(** X10. An account number and its normalised form (separators dropped,
    letters upper-cased) compare alike with every other value. *)
Theorem compareAccountNumbers_normal_form (acc1 acc2 : list N) :
  compareAccountNumbers toUpperCase (normalized acc1) acc2
  = compareAccountNumbers toUpperCase acc1 acc2.
Proof using toUpperCase_ascii.
  rewrite !(compareAccountNumbers_normalized toUpperCase toUpperCase_ascii).
  by rewrite normalized_idemp.
Qed.

(** X11. A value without any ASCII letter or digit matches no value, not
    even itself. *)
Theorem compareAccountNumbers_blank (acc1 acc2 : list N) :
  Forall (λ c, is_alnum c = false) acc1 →
  compareAccountNumbers toUpperCase acc1 acc2 = false
  ∧ compareAccountNumbers toUpperCase acc2 acc1 = false.
Proof using toUpperCase_ascii.
  intros Hblank%normalized_nil_iff.
  rewrite !(compareAccountNumbers_normalized toUpperCase toUpperCase_ascii).
  rewrite Hblank. split; (rewrite bool_decide_eq_true_2; [done | auto]).
Qed.
End AccountNumbersMore.

Lemma compareAccountNumbers_prefixed_witness :
  Exists (λ c, is_alnum c = true) (str "0012-3456")
  ∧ compareAccountNumbers (map upper_ascii) (str "SA44 " ++ str "0012-3456")
      (str "0012-3456") = true.
Proof.
  assert (Exists (λ c, is_alnum c = true) (str "0012-3456")) as Hex.
  { by apply Exists_cons_hd. }
  split; [exact Hex|].
  exact (compareAccountNumbers_prefixed (map upper_ascii) (λ s _, eq_refl)
           (str "SA44 ") (str "0012-3456") Hex).
Defined.

Lemma compareAccountNumbers_normal_form_witness :
  compareAccountNumbers (map upper_ascii) (normalized (str "sa12 0001")) (str "SA120001")
  = compareAccountNumbers (map upper_ascii) (str "sa12 0001") (str "SA120001").
Proof.
  exact (compareAccountNumbers_normal_form (map upper_ascii) (λ s _, eq_refl)
           (str "sa12 0001") (str "SA120001")).
Defined.

Lemma compareAccountNumbers_blank_witness :
  Forall (λ c, is_alnum c = false) (str "--")
  ∧ compareAccountNumbers (map upper_ascii) (str "--") (str "--") = false.
Proof.
  assert (Forall (λ c, is_alnum c = false) (str "--")) as Hblank.
  { by repeat constructor. }
  split; [exact Hblank|].
  exact (proj1 (compareAccountNumbers_blank (map upper_ascii) (λ s _, eq_refl)
                  (str "--") (str "--") Hblank)).
Defined.

(** ** More on the comparison of two records *)

Lemma compareAccountNumbers_swap (toUpperCase : list N → list N) (a b : list N) :
  compareAccountNumbers toUpperCase a b = compareAccountNumbers toUpperCase b a.
Proof.
  unfold compareAccountNumbers. rewrite (orb_comm (falsy a)).
  destruct (falsy b || falsy a); [done|]. cbv zeta.
  generalize (toUpperCase (List.filter is_alnum a))
             (toUpperCase (List.filter is_alnum b)). intros n1 n2.
  rewrite (orb_comm (length n1 =? 0)).
  destruct ((length n2 =? 0) || (length n1 =? 0)); [done|].
  rewrite (bool_decide_ext (n1 = n2) (n2 = n1)) by done.
  case_bool_decide as Heq; [done|].
  destruct (Nat.ltb_spec (length n1) (length n2)) as [Hlt|Hge],
           (Nat.ltb_spec (length n2) (length n1)) as [Hlt'|Hge'];
    try done; try lia.
  rewrite !endsWith_suffix.
  rewrite !bool_decide_eq_false_2; [done|..]; intros Hsuf; apply Heq.
  - symmetry. apply (suffix_length_eq _ _ Hsuf). lia.
  - apply (suffix_length_eq _ _ Hsuf). lia.
Qed.

Lemma fuzzyMatch_swap (str1 str2 : list N) (tolerance : spec_float) :
  fuzzyMatch str1 str2 tolerance = fuzzyMatch str2 str1 tolerance.
Proof.
  unfold fuzzyMatch.
  rewrite (andb_comm (falsy str1)), (orb_comm (falsy str1)).
  rewrite (Nat.max_comm (length str1)).
  by rewrite !calculateLevenshteinDistance_eq_lev, (lev_sym str1).
Qed.

Lemma fuzzyMatch_same (s : list N) (t : spec_float) :
  SFleb t (of_nat 1) = true → fuzzyMatch s s t = true.
Proof.
  intros Ht. destruct s as [|c s]; [done|].
  unfold fuzzyMatch. cbn [falsy andb orb].
  destruct (Nat.eqb_spec (Nat.max (length (c :: s)) (length (c :: s))) 0) as [|_];
    [done|].
  rewrite calculateLevenshteinDistance_eq_lev, lev_refl.
  rewrite similarity_of_distance_0; [done | simpl; lia].
Qed.

Section FieldsMore.
Variables toUpperCase toLowerCase : list N → list N.

Lemma compareField_swap (data1 data2 : gmap string (list N)) key :
  compareField toUpperCase toLowerCase data2 data1 key
  = Entry (value2 (compareField toUpperCase toLowerCase data1 data2 key))
          (value1 (compareField toUpperCase toLowerCase data1 data2 key))
          (isMatch (compareField toUpperCase toLowerCase data1 data2 key)).
Proof.
  unfold compareField. cbn [value1 value2 isMatch]. f_equal.
  rewrite !(fuzzyMatch_swap (default [] (data2 !! key))).
  rewrite (compareAccountNumbers_swap _ (default [] (data2 !! key))).
  repeat (destruct (_ || _) || destruct (bool_decide (key = _))); try done.
  by apply bool_decide_ext.
Qed.

(** X12. Comparing the two documents in the other order gives the same
    match flag for every field, with the two values exchanged. *)
Theorem comparison_swap (data1 data2 : gmap string (list N)) (key : string) :
  buildComparison toUpperCase toLowerCase data2 data1 !! key
  = (λ e, Entry (value2 e) (value1 e) (isMatch e))
      <$> buildComparison toUpperCase toLowerCase data1 data2 !! key.
Proof.
  rewrite !buildComparison_lookup.
  rewrite (comm_L (∪) (dom data2) (dom data1)).
  case_decide; [|done]. simpl. f_equal. apply compareField_swap.
Qed.

(** X13. For the name, goods and account fields, a value that only one of
    the two documents has (the other has none, or the empty string) never
    matches. *)
Theorem comparison_one_sided (data1 data2 : gmap string (list N))
    (key : string) (entry : ComparisonEntry) :
  buildComparison toUpperCase toLowerCase data1 data2 !! key = Some entry →
  key ∈ ["beneficiaryName"; "bankName"; "goodsDescription"; "accountNumber"]%string →
  (value1 entry = [] ∧ value2 entry ≠ []) ∨ (value1 entry ≠ [] ∧ value2 entry = []) →
  isMatch entry = false.
Proof.
  rewrite buildComparison_lookup. case_decide; [|done]. intros [= <-] Hkey.
  unfold compareField. cbn [value1 value2 isMatch].
  generalize (default [] (data1 !! key)) (default [] (data2 !! key)).
  intros v1 v2 Hside.
  assert (∀ t, fuzzyMatch v1 v2 t = false) as Hfuzzy.
  { intros t. by destruct v1, v2, Hside as [[? ?]|[? ?]]. }
  assert (compareAccountNumbers toUpperCase v1 v2 = false) as Hacc.
  { by destruct v1, v2, Hside as [[? ?]|[? ?]]. }
  rewrite !Hfuzzy, Hacc.
  repeat (apply elem_of_cons in Hkey as [->|Hkey]); [..|by apply elem_of_nil in Hkey];
    repeat case_bool_decide; done.
Qed.

(** X14. Except for the account number, two documents with the same value
    of a field (or both without the field) match in it. *)
Theorem comparison_same_value (data1 data2 : gmap string (list N))
    (key : string) (entry : ComparisonEntry) :
  buildComparison toUpperCase toLowerCase data1 data2 !! key = Some entry →
  key ≠ "accountNumber"%string →
  value1 entry = value2 entry →
  isMatch entry = true.
Proof.
  rewrite buildComparison_lookup. case_decide; [|done]. intros [= <-] Hkey.
  unfold compareField. cbn [value1 value2 isMatch]. intros ->.
  rewrite !fuzzyMatch_same by (vm_compute; reflexivity).
  rewrite (bool_decide_eq_false_2 (key = "accountNumber"%string)) by done.
  repeat case_bool_decide; done.
Qed.
End FieldsMore.

Lemma comparison_one_sided_witness :
  buildComparison (map upper_ascii) id
    {[ "bankName"%string := str "ANB" ]} ∅ !! "bankName"%string
  = Some (Entry (str "ANB") [] false)
  ∧ isMatch (Entry (str "ANB") [] false) = false.
Proof.
  assert (buildComparison (map upper_ascii) id
            {[ "bankName"%string := str "ANB" ]} ∅ !! "bankName"%string
          = Some (Entry (str "ANB") [] false)) as Hentry
    by (vm_compute; reflexivity).
  split; [exact Hentry|].
  refine (comparison_one_sided (map upper_ascii) id _ _ _ _ Hentry _ _).
  - apply elem_of_cons. right. apply elem_of_cons. by left.
  - right. by split.
Defined.

Lemma comparison_same_value_witness :
  buildComparison (map upper_ascii) id
    {[ "city"%string := str "Sana'a" ]} {[ "city"%string := str "Sana'a" ]}
    !! "city"%string
  = Some (Entry (str "Sana'a") (str "Sana'a") true)
  ∧ isMatch (Entry (str "Sana'a") (str "Sana'a") true) = true.
Proof.
  assert (buildComparison (map upper_ascii) id
            {[ "city"%string := str "Sana'a" ]} {[ "city"%string := str "Sana'a" ]}
            !! "city"%string
          = Some (Entry (str "Sana'a") (str "Sana'a") true)) as Hentry
    by (vm_compute; reflexivity).
  split; [exact Hentry|].
  refine (comparison_same_value (map upper_ascii) id _ _ _ _ Hentry _ _); done.
Defined.

(** ** DiffText and ComparisonView *)

(** Everything the views need to know about a diff. *)
Lemma diffStrings_summary (oldStr newStr : list N) :
  ∃ spans k,
    diffStrings oldStr newStr = Some spans
    ∧ Forall well_tagged spans
    ∧ concat (map value (List.filter (λ s, negb (is_removed s)) spans)) = newStr
    ∧ concat (map value (List.filter (λ s, negb (is_added s)) spans)) = oldStr
    ∧ is_lcs_length (Array_from oldStr) (Array_from newStr) k
    ∧ units_tagged is_removed spans + k = length (Array_from oldStr)
    ∧ units_tagged is_added spans + k = length (Array_from newStr).
Proof.
  destruct (diffStrings_trace oldStr newStr) as (es & Hrun & Ho & Hn & Hk).
  exists (coalesce (map to_span es)), (length (keeps es)).
  assert (∀ p, class_only p →
            units_tagged p (coalesce (map to_span es))
            = length (List.filter p (map to_span es))) as Hunits.
  { intros p Hp. apply coalesce_units; [done|..]; rewrite ?Ho, ?Hn;
      auto using Array_from_atomic, Array_from_units_ok. }
  split_and!.
  - done.
  - apply coalesce_Forall_class; [|apply trace_well_tagged].
    intros s s' Ha Hr. unfold well_tagged. by rewrite Ha, Hr.
  - rewrite coalesce_values by apply class_only_negb, class_only_is_removed.
    by rewrite trace_not_removed, Hn, concat_Array_from.
  - rewrite coalesce_values by apply class_only_negb, class_only_is_added.
    by rewrite trace_not_added, Ho, concat_Array_from.
  - rewrite Hk. apply is_lcs_length_reverse, lcs_len_is_lcs_length.
  - rewrite Hunits by apply class_only_is_removed.
    pose proof (trace_removed es) as Hr. rewrite Ho in Hr. lia.
  - rewrite Hunits by apply class_only_is_added.
    pose proof (trace_added es) as Ha. rewrite Hn in Ha. lia.
Qed.

Lemma DiffText_cons s spans type :
  DiffText (s :: spans) type = DiffText [s] type ++ DiffText spans type.
Proof. reflexivity. Qed.

Lemma textContent_app p1 p2 : textContent (p1 ++ p2) = textContent p1 ++ textContent p2.
Proof. unfold textContent. by rewrite map_app, concat_app. Qed.

Lemma highlighted_app p1 p2 : highlighted (p1 ++ p2) = highlighted p1 ++ highlighted p2.
Proof. unfold highlighted. apply omap_app. Qed.

Lemma DiffText_removed_text spans :
  Forall well_tagged spans →
  textContent (DiffText spans TypeRemoved)
  = concat (map value (List.filter (λ s, negb (is_added s)) spans)).
Proof.
  induction 1 as [|s spans Hs _ IH]; [done|].
  rewrite DiffText_cons, textContent_app, IH. cbn [List.filter].
  destruct Hs as [[Ha Hr]|[[Ha Hr]|[Ha Hr]]];
    unfold textContent, DiffText, is_added, is_removed; simpl;
    rewrite ?Ha, ?Hr; simpl; by rewrite ?app_nil_r.
Qed.

Lemma DiffText_added_text spans :
  Forall well_tagged spans →
  textContent (DiffText spans TypeAdded)
  = concat (map value (List.filter (λ s, negb (is_removed s)) spans)).
Proof.
  induction 1 as [|s spans Hs _ IH]; [done|].
  rewrite DiffText_cons, textContent_app, IH. cbn [List.filter].
  destruct Hs as [[Ha Hr]|[[Ha Hr]|[Ha Hr]]];
    unfold textContent, DiffText, is_added, is_removed; simpl;
    rewrite ?Ha, ?Hr; simpl; by rewrite ?app_nil_r.
Qed.

Lemma DiffText_removed_highlighted spans :
  highlighted (DiffText spans TypeRemoved) = map value (List.filter is_removed spans).
Proof.
  induction spans as [|s spans IH]; [done|].
  rewrite DiffText_cons, highlighted_app, IH. cbn [List.filter].
  unfold highlighted, DiffText. simpl.
  destruct (is_removed s); [done|]. by destruct (negb (is_added s)).
Qed.

Lemma DiffText_added_highlighted spans :
  highlighted (DiffText spans TypeAdded) = map value (List.filter is_added spans).
Proof.
  induction spans as [|s spans IH]; [done|].
  rewrite DiffText_cons, highlighted_app, IH. cbn [List.filter].
  unfold highlighted, DiffText. simpl.
  destruct (is_added s); [done|]. by destruct (negb (is_removed s)).
Qed.

(** X15. Rendered from the diff of two strings, the ['removed'] view shows
    exactly the old string and the ['added'] view exactly the new one. *)
Theorem DiffText_shows_both (oldStr newStr : list N) :
  ∃ spans,
    diffStrings oldStr newStr = Some spans
    ∧ textContent (DiffText spans TypeRemoved) = oldStr
    ∧ textContent (DiffText spans TypeAdded) = newStr.
Proof.
  destruct (diffStrings_summary oldStr newStr)
    as (spans & k & Hrun & Htags & Hnew & Hold & _).
  exists spans. split_and!; [done|..].
  - by rewrite DiffText_removed_text.
  - by rewrite DiffText_added_text.
Qed.

(** X16. The views highlight as little as possible: counted in code points,
    the ['removed'] view highlights all of the old string but a longest
    common subsequence, and the ['added'] view all of the new string but
    the same. *)
Theorem DiffText_highlights_minimal (oldStr newStr : list N) :
  ∃ spans k,
    diffStrings oldStr newStr = Some spans
    ∧ is_lcs_length (Array_from oldStr) (Array_from newStr) k
    ∧ sum_list (map (λ text, length (Array_from text))
                  (highlighted (DiffText spans TypeRemoved))) + k
      = length (Array_from oldStr)
    ∧ sum_list (map (λ text, length (Array_from text))
                  (highlighted (DiffText spans TypeAdded))) + k
      = length (Array_from newStr).
Proof.
  destruct (diffStrings_summary oldStr newStr)
    as (spans & k & Hrun & _ & _ & _ & Hlcs & Hrem & Hadd).
  exists spans, k. split_and!; [done..| |].
  - rewrite DiffText_removed_highlighted, map_map. exact Hrem.
  - rewrite DiffText_added_highlighted, map_map. exact Hadd.
Qed.





(** X18. Whatever the diff switch and the match flag, a card shows the two
    values in full: the first box reads [value1], the second [value2], and
    the icon is that of the match flag. *)
Theorem comparisonCard_text (showDiff : bool) (key : string) (res : ComparisonEntry) :
  ∃ rendered,
    comparisonCard showDiff key res = Some rendered
    ∧ match rendered with
      | Some c =>
          display_text (card_file1 c) = value1 res
          ∧ display_text (card_file2 c) = value2 res
          ∧ card_match c = isMatch res
      | None => True
      end.
Proof.
  unfold comparisonCard.
  destruct (falsy (default [] (fieldMap !! key))
            || falsy (value1 res) && falsy (value2 res)); [by exists None|].
  destruct (showDiff && negb (isMatch res)).
  - destruct (diffStrings_summary (value1 res) (value2 res))
      as (spans & k & -> & Htags & Hnew & Hold & _).
    eexists. split; [reflexivity|]. cbn.
    by rewrite DiffText_removed_text, DiffText_added_text.
  - by eexists.
Qed.

(** ** handleCopy *)

(** X19. Copying the data of a result card writes to the clipboard exactly
    when one of the six listed fields has a non-empty value: a record with
    nothing but a goods description copies nothing. *)
Theorem handleCopy_data_empty (data : gmap string (list N))
    (companyInfo : option (list N)) :
  handleCopy SectionData data companyInfo = None
  ↔ Forall (λ key, default [] (data !! key) = [])
      ["beneficiaryName"; "accountNumber"; "swiftCode"; "bankName"; "city";
       "address"]%string.
Proof.
  rewrite !Forall_cons, Forall_nil.
  unfold handleCopy, resultFields. cbn [omap list_omap fst snd].
  generalize (default [] (data !! "beneficiaryName"%string))
             (default [] (data !! "accountNumber"%string))
             (default [] (data !! "swiftCode"%string))
             (default [] (data !! "bankName"%string))
             (default [] (data !! "city"%string))
             (default [] (data !! "address"%string)).
  intros [|c1 v1] [|c2 v2] [|c3 v3] [|c4 v4] [|c5 v5] [|c6 v6];
    (split; [intros Hnone; try done | intros (?&?&?&?&?&?&_); done]).
Qed.

(** ** prepareContentPart and getFileIcon *)

(** X20. A file that is listed with the generic file icon is never read:
    [prepareContentPart] rejects it as an unsupported type, naming its type,
    or its name when the type is empty. *)
Theorem generic_icon_unsupported {E : Type}
    (toBase64 toText wordToText excelToText : File → list N + E) (file : File) :
  getFileIcon file = FileIcon →
  prepareContentPart toBase64 toText wordToText excelToText file
  = inr (Unsupported
           (unsupported_prefix ++ (if falsy (type file) then name file else type file))).
Proof.
  unfold getFileIcon, prepareContentPart.
  destruct (startsWith (type file) (str "image/")); [done|].
  destruct (bool_decide (type file = str "application/pdf")); [done|].
  destruct (includes (type file) (str "word")) eqn:Hword; [done|].
  destruct (endsWith (name file) (str ".docx")); [done|].
  destruct (includes (type file) (str "excel")); [done|].
  destruct (includes (type file) (str "spreadsheet")) eqn:Hsheet; [done|].
  destruct (endsWith (name file) (str ".xlsx")); [done|].
  destruct (endsWith (name file) (str ".xls")); [done|].
  destruct (startsWith (type file) (str "text/")); [done|].
  destruct (endsWith (name file) (str ".txt")); [done|].
  intros _. cbn [orb].
  case_bool_decide as Hdocx.
  { rewrite Hdocx in Hword. vm_compute in Hword. done. }
  case_bool_decide as Hxlsx.
  { rewrite Hxlsx in Hsheet. vm_compute in Hsheet. done. }
  done.
Qed.

Lemma generic_icon_unsupported_witness :
  getFileIcon {| name := str "backup.zip"; type := str "application/zip" |} = FileIcon
  ∧ prepareContentPart (E := unit) (λ _, inl []) (λ _, inl []) (λ _, inl []) (λ _, inl [])
      {| name := str "backup.zip"; type := str "application/zip" |}
    = inr (Unsupported (unsupported_prefix ++ str "application/zip")).
Proof.
  assert (getFileIcon {| name := str "backup.zip"; type := str "application/zip" |}
          = FileIcon) as Hicon by (vm_compute; reflexivity).
  split; [exact Hicon|].
  exact (generic_icon_unsupported (E := unit) (λ _, inl []) (λ _, inl [])
           (λ _, inl []) (λ _, inl [])
           {| name := str "backup.zip"; type := str "application/zip" |} Hicon).
Defined.



(** ** Examples of the specification *)

Example lev_kitten :
  calculateLevenshteinDistance (str "kitten") (str "sitting") = 3.
Proof. vm_compute. reflexivity. Qed.

Example diff_abc_axc :
  diffStrings (str "abc") (str "axc")
  = Some [Span (str "a") None None; Span (str "b") None (Some true);
          Span (str "x") (Some true) None; Span (str "c") None None].
Proof. vm_compute. reflexivity. Qed.

Example diff_abc_abc :
  diffStrings (str "abc") (str "abc") = Some [Span (str "abc") None None].
Proof. vm_compute. reflexivity. Qed.

Example compare_iban_spacing_case :
  compareAccountNumbers (map upper_ascii) (str "SA12 0001") (str "sa120001") = true.
Proof. vm_compute. reflexivity. Qed.

Example compare_empty_account :
  compareAccountNumbers (map upper_ascii) (str "") (str "12345") = false.
Proof. reflexivity. Qed.

(** Code points outside the basic plane are compared as a whole: the two
    emoji U+1F600 and U+1F601 share their leading surrogate only. *)
Example diff_surrogate_pairs :
  diffStrings [0xD83D; 0xDE00]%N [0xD83D; 0xDE01]%N
  = Some [Span [0xD83D; 0xDE00]%N None (Some true);
          Span [0xD83D; 0xDE01]%N (Some true) None].
Proof. vm_compute. reflexivity. Qed.

Example lev_surrogate_pairs :
  calculateLevenshteinDistance [0xD83D; 0xDE00]%N [0xD83D; 0xDE01]%N = 1.
Proof. vm_compute. reflexivity. Qed.

(** The boundary of the tolerance 0.7: three edits in ten code units. *)
Example fuzzyMatch_boundary_0_7 :
  fuzzyMatch (str "abcdefghij") (str "abcdefgxyz") tolerance_0_7 = true
  ∧ fuzzyMatch (str "abcdefghij") (str "abcdefwxyz") tolerance_0_7 = false.
Proof. split; vm_compute; reflexivity. Qed.
